(** * grep-ast: the scope-aware context selection of [TreeContext]

    A shallow embedding of [grep_ast/grep_ast.py] (class [TreeContext]) and the
    verification of its documented properties.

    Conventions of the embedding
    - Line numbers are Python integers: [Z].
    - A Python [set] of line numbers is a [gset Z]; where the source iterates
      over a set, the model iterates over [elements], a fixed enumeration of
      exactly the members of the set.
    - A Python [list] used as a per-line table is a Rocq [list], read and
      updated through [py_get] and [py_modify], which implement Python's
      subscript: a negative index counts from the end, anything else out of
      range raises [IndexError].
    - A method that can raise returns a [res]: [Ok], [Raise] or, for the one
      recursion that is not structural ([add_parent_scopes]), [OutOfFuel].
    - The syntax tree is the input of the embedding (the parser is external);
      a node is its start row, its end row and its children.
    - Strings are byte strings; [verbose] tracing (printing only) is left out. *)

From Stdlib Require Import ZArith Lia Ascii String DecimalString.
From stdpp Require Import gmap sets list strings sorting.

Local Open Scope Z_scope.
#[local] Set Warnings "-clear-no-such-hyp".

(** ** Results of fallible methods *)

Inductive exn := IndexError | ValueError.

Inductive res (A : Type) : Type :=
| Ok (a : A)
| Raise (e : exn)
| OutOfFuel.

Arguments Ok {A} a.
Arguments Raise {A} e.
Arguments OutOfFuel {A}.

#[global] Instance res_bind : MBind res := λ A B f m,
  match m with
  | Ok a => f a
  | Raise e => Raise e
  | OutOfFuel => OutOfFuel
  end.

#[global] Instance res_ret : MRet res := λ A a, Ok a.

Section loops.
Context {A S : Type}.
Variable body : A → S → res S.

(** [for x in l: body(x)] over a state [S] that the body may update. *)
Fixpoint for_each (l : list A) (s : S) : res S :=
  match l with
  | [] => Ok s
  | x :: l' => s' ← body x s; for_each l' s'
  end.
End loops.

(** ** Python subscripts and ranges *)

Definition py_index {A} (l : list A) (i : Z) : res nat :=
  let n := Z.of_nat (length l) in
  if bool_decide (0 ≤ i < n) then Ok (Z.to_nat i)
  else if bool_decide (- n ≤ i < 0) then Ok (Z.to_nat (n + i))
  else Raise IndexError.

Definition py_get {A} (l : list A) (i : Z) : res A :=
  k ← py_index l i;
  match l !! k with
  | Some x => Ok x
  | None => Raise IndexError
  end.

Definition py_modify {A} (l : list A) (i : Z) (f : A → A) : res (list A) :=
  k ← py_index l i;
  match l !! k with
  | Some x => Ok (<[k := f x]> l)
  | None => Raise IndexError
  end.

(** [range(a, b)] *)
Definition range (a b : Z) : list Z := seqZ a (b - a).

(** [s.update(l)] *)
Definition update (s : gset Z) (l : list Z) : gset Z := list_to_set l ∪ s.

(** ** Syntax nodes and configuration *)

#[warnings="-register-all"] Inductive Node : Type :=
  mkNode { start_line : Z; end_line : Z; children : list Node }.

Record Config : Type := mkConfig {
  color : bool;
  line_number : bool;
  parent_context : bool;
  child_context : bool;
  last_line : bool;
  margin : Z;
  mark_lois : bool;
  header_max : Z;
  show_top_of_file_parent_scope : bool;
  loi_pad : Z
}.

(** The defaults of [TreeContext.__init__]. *)
Definition default_config : Config :=
  {| color := false; line_number := false; parent_context := true;
     child_context := true; last_line := true; margin := 3; mark_lois := true;
     header_max := 10; show_top_of_file_parent_scope := true; loi_pad := 1 |}.

(** ** Indexing: [walk_tree] *)

(** A header candidate [(size, start_line, end_line)]. *)
Definition candidate : Type := Z * Z * Z.

(** The three per-line tables while the tree is walked. *)
Record Tables : Type := mkTables {
  t_scopes : list (gset Z);
  t_header : list (list candidate);
  t_nodes : list (list Node)
}.

Definition empty_tables (num_lines : nat) : Tables :=
  {| t_scopes := replicate num_lines ∅;
     t_header := replicate num_lines [];
     t_nodes := replicate num_lines [] |}.

(** [for i in range(start_line, end_line + 1): self.scopes[i].add(start_line)] *)
Definition add_scope (s : Z) (i : Z) (sc : list (gset Z)) : res (list (gset Z)) :=
  py_modify sc i (λ X, {[ s ]} ∪ X).

Fixpoint walk_tree (node : Node) (t : Tables) : res Tables :=
  let s := start_line node in
  let e := end_line node in
  let size := e - s in
  nodes' ← py_modify (t_nodes t) s (λ l, l ++ [node]);
  header' ← (if bool_decide (size = 0) then Ok (t_header t)
             else py_modify (t_header t) s (λ l, l ++ [(size, s, e)]));
  scopes' ← for_each (add_scope s) (range s (e + 1)) (t_scopes t);
  for_each walk_tree (children node)
    {| t_scopes := scopes'; t_header := header'; t_nodes := nodes' |}.

(** ** Construction: [__init__] *)

(** Python's order on tuples of integers. *)
Definition candidate_le (a b : candidate) : Prop :=
  let '(sa, ha, ea) := a in
  let '(sb, hb, eb) := b in
  sa < sb ∨ (sa = sb ∧ (ha < hb ∨ (ha = hb ∧ ea ≤ eb))).

#[global] Instance candidate_le_dec a b : Decision (candidate_le a b).
Proof. destruct a as [[??]?], b as [[??]?]; simpl; apply _. Defined.

(** The body of the loop [for i in range(self.num_lines)] that replaces the
    candidates of line [i] by its header. *)
Definition finalize_header (cfg : Config) (i : Z) (cands : list candidate) : Z * Z :=
  let header := merge_sort candidate_le cands in
  match header with
  | (size, head_start, head_end) :: _ :: _ =>
      (head_start,
       if bool_decide (header_max cfg < size) then head_start + header_max cfg
       else head_end)
  | _ => (i, i + 1)
  end.

Record TreeContext : Type := mkTreeContext {
  config : Config;
  lines : list string;
  scopes : list (gset Z);
  header : list (Z * Z);
  nodes : list (list Node)
}.

(** [self.num_lines = len(self.lines) + 1] *)
Definition num_lines (tc : TreeContext) : Z := Z.of_nat (length (lines tc)) + 1.

(** [code.splitlines()] and the parse are inputs: [lines] and [root]. *)
Definition init (cfg : Config) (lines : list string) (root : Node) : res TreeContext :=
  t ← walk_tree root (empty_tables (length lines + 1));
  Ok {| config := cfg;
        lines := lines;
        scopes := t_scopes t;
        header := imap (λ i c, finalize_header cfg (Z.of_nat i) c) (t_header t);
        nodes := t_nodes t |}.

(** ** The expander *)

(** The mutable fields of a [TreeContext]. *)
Record State : Type := mkState {
  lines_of_interest : gset Z;
  show_lines : gset Z;
  done_parent_scopes : gset Z;
  output_lines : gmap Z string
}.

(** The fields as [__init__] leaves them. *)
Definition init_state : State :=
  {| lines_of_interest := ∅; show_lines := ∅; done_parent_scopes := ∅;
     output_lines := ∅ |}.

Definition set_show (st : State) (X : gset Z) : State :=
  {| lines_of_interest := lines_of_interest st; show_lines := X;
     done_parent_scopes := done_parent_scopes st;
     output_lines := output_lines st |}.

Definition set_done (st : State) (X : gset Z) : State :=
  {| lines_of_interest := lines_of_interest st; show_lines := show_lines st;
     done_parent_scopes := X; output_lines := output_lines st |}.

Definition add_lines_of_interest (line_nums : gset Z) (st : State) : State :=
  {| lines_of_interest := line_nums ∪ lines_of_interest st;
     show_lines := show_lines st;
     done_parent_scopes := done_parent_scopes st;
     output_lines := output_lines st |}.

Section expander.
Variable tc : TreeContext.

(** [max(node.end_point[0] for node in self.nodes[i])]; [max] of an empty
    sequence raises [ValueError]. *)
Definition get_last_line_of_scope (i : Z) : res Z :=
  ns ← py_get (nodes tc) i;
  match ns with
  | [] => Raise ValueError
  | n :: ns' => Ok (foldl (λ m n', Z.max m (end_line n')) (end_line n) ns')
  end.

(** The body of [for line_num in self.scopes[i]], given the recursive call. *)
Definition parent_scope_step (rec : Z → State → res State)
    (line_num : Z) (st : State) : res State :=
  '(head_start, head_end) ← py_get (header tc) line_num;
  let st1 :=
    if bool_decide (0 < head_start) || show_top_of_file_parent_scope (config tc)
    then set_show st (update (show_lines st) (range head_start head_end))
    else st in
  if last_line (config tc) then
    last ← get_last_line_of_scope line_num;
    rec last st1
  else Ok st1.

Fixpoint add_parent_scopes (fuel : nat) (i : Z) (st : State) : res State :=
  match fuel with
  | O => OutOfFuel
  | S fuel' =>
      if bool_decide (i ∈ done_parent_scopes st) then Ok st
      else
        let st1 := set_done st ({[ i ]} ∪ done_parent_scopes st) in
        if bool_decide (Z.of_nat (length (scopes tc)) ≤ i) then Ok st1
        else
          sc ← py_get (scopes tc) i;
          for_each (parent_scope_step (add_parent_scopes fuel')) (elements sc) st1
  end.

(** Every call that goes past the two guards marks a new line of
    [[-len, len)] as done, so this many nested calls are enough (see
    [add_parent_scopes_fuel]). *)
Definition enough_fuel : nat := S (2 * length (scopes tc)).

Fixpoint find_all_children (node : Node) : list Node :=
  node :: concat (map find_all_children (children node)).

Definition span (node : Node) : Z := end_line node - start_line node.

(** [sorted(children, key=span, reverse=True)]: stable, largest span first. *)
Fixpoint insert_by_span (x : Node) (l : list Node) : list Node :=
  match l with
  | [] => [x]
  | y :: l' =>
      if bool_decide (span y ≤ span x) then x :: y :: l'
      else y :: insert_by_span x l'
  end.

Fixpoint sort_by_span (l : list Node) : list Node :=
  match l with
  | [] => []
  | x :: l' => insert_by_span x (sort_by_span l')
  end.

(** [len(self.show_lines) > currently_showing + max(min(size * 0.10, 25), 5)]
    with both sides scaled by ten, which keeps the comparison in the
    integers: [size * 0.10] never rounds below [size / 10], and the left
    side is an integer. *)
Definition over_budget (sz currently_showing : Z) (st : State) : bool :=
  bool_decide (10 * (Z.of_nat (size (show_lines st)) - currently_showing)
               > Z.max (Z.min sz 250) 50).

(** The loop over the ranked descendants, with its [break]. *)
Fixpoint show_children (sz currently_showing : Z) (cs : list Node)
    (st : State) : res State :=
  match cs with
  | [] => Ok st
  | child :: cs' =>
      if over_budget sz currently_showing st then Ok st
      else
        st' ← add_parent_scopes enough_fuel (start_line child) st;
        show_children sz currently_showing cs' st'
  end.

Definition add_child_context (i : Z) (st : State) : res State :=
  ns ← py_get (nodes tc) i;
  match ns with
  | [] => Ok st
  | _ :: _ =>
      last ← get_last_line_of_scope i;
      let sz := last - i in
      if bool_decide (sz < 5) then
        Ok (set_show st (update (show_lines st) (range i (last + 1))))
      else
        let cs := sort_by_span (concat (map find_all_children ns)) in
        let currently_showing := Z.of_nat (size (show_lines st)) in
        show_children sz currently_showing cs st
  end.

(** Whether [s.strip()] is the empty string: every character is white
    space ([\t \n \v \f \r], the separators 28 to 31, and the blank). *)
Definition is_space (c : ascii) : bool :=
  let n := nat_of_ascii c in
  (Nat.leb 9 n && Nat.leb n 13) || (Nat.leb 28 n && Nat.leb n 32).

Fixpoint blank (s : string) : bool :=
  match s with
  | EmptyString => true
  | String c s' => is_space c && blank s'
  end.

(** First loop of [close_small_gaps], over the neighbours of [sorted_show]. *)
Fixpoint fill_gaps (sorted_show : list Z) (closed_show : gset Z) : gset Z :=
  match sorted_show with
  | a :: rest =>
      match rest with
      | b :: _ =>
          fill_gaps rest
            (if bool_decide (b - a = 2) then {[ a + 1 ]} ∪ closed_show
             else closed_show)
      | [] => closed_show
      end
  | [] => closed_show
  end.

(** Body of the second loop, [for i, line in enumerate(self.lines)]. *)
Definition attach_blank (il : Z * string) (closed_show : gset Z) : res (gset Z) :=
  let '(i, line) := il in
  if bool_decide (i ∉ closed_show) then Ok closed_show
  else
    cur ← py_get (lines tc) i;
    if negb (blank cur) && bool_decide (i < num_lines tc - 2) then
      next ← py_get (lines tc) (i + 1);
      if blank next then Ok ({[ i + 1 ]} ∪ closed_show) else Ok closed_show
    else Ok closed_show.

(** [enumerate(l)] *)
Definition enumerate {A} (l : list A) : list (Z * A) :=
  imap (λ i x, (Z.of_nat i, x)) l.

Definition sorted (X : gset Z) : list Z := merge_sort Z.le (elements X).

Definition close_small_gaps (st : State) : res State :=
  let closed_show := fill_gaps (sorted (show_lines st)) (show_lines st) in
  closed_show' ← for_each attach_blank (enumerate (lines tc)) closed_show;
  Ok (set_show st closed_show').

(** The padding loop of [add_context]. *)
Definition pad_line (line : Z) (show : gset Z) : gset Z :=
  foldl (λ acc new_line,
           if bool_decide (num_lines tc ≤ new_line) || bool_decide (new_line < 0)
           then acc else {[ new_line ]} ∪ acc)
        show
        (range (line - loi_pad (config tc)) (line + loi_pad (config tc) + 1)).

(** [add_context] once [done_parent_scopes] and [show_lines] are reset. *)
Definition expand (st0 : State) : res State :=
  let loi := lines_of_interest st0 in
  let st1 :=
    if bool_decide (loi_pad (config tc) = 0) then st0
    else set_show st0 (foldl (λ acc line, pad_line line acc)
                             (show_lines st0) (elements (show_lines st0))) in
  st2 ← (if last_line (config tc) then
           let bottom_line := num_lines tc - 2 in
           add_parent_scopes enough_fuel bottom_line
             (set_show st1 ({[ bottom_line ]} ∪ show_lines st1))
         else Ok st1);
  st3 ← (if parent_context (config tc) then
           for_each (add_parent_scopes enough_fuel) (elements loi) st2
         else Ok st2);
  st4 ← (if child_context (config tc) then
           for_each add_child_context (elements loi) st3
         else Ok st3);
  let st5 :=
    if bool_decide (margin (config tc) = 0) then st4
    else set_show st4 (update (show_lines st4) (range 0 (margin (config tc)))) in
  close_small_gaps st5.

Definition add_context (st : State) : res State :=
  if bool_decide (lines_of_interest st = ∅) then Ok st
  else expand (set_show (set_done st ∅) (lines_of_interest st)).

(** A session: the public calls that change the state, from [__init__] on. *)
Inductive call : Type :=
| AddLinesOfInterest (line_nums : gset Z)
| AddContext.

Definition run_call (c : call) (st : State) : res State :=
  match c with
  | AddLinesOfInterest line_nums => Ok (add_lines_of_interest line_nums st)
  | AddContext => add_context st
  end.

Definition session (cs : list call) : res State := for_each run_call cs init_state.
End expander.

#[global] Opaque enough_fuel.

(** ** Rendering: [format] *)

Definition nl : string := String (ascii_of_nat 10) EmptyString.
Definition esc : string := String (ascii_of_nat 27) EmptyString.

(** The three markers, in UTF-8: the vertical ellipsis, the full block and
    the light vertical bar. *)
Definition utf8 (a b c : nat) : string :=
  String (ascii_of_nat a) (String (ascii_of_nat b) (String (ascii_of_nat c) EmptyString)).
Definition vdots : string := utf8 226 139 174.
Definition block : string := utf8 226 150 136.
Definition bar : string := utf8 226 148 130.

Definition pad_left (width : nat) (s : string) : string :=
  String.concat EmptyString (replicate (width - String.length s) " "%string) +:+ s.

(** [f"{n: 3}"]: a blank for the sign of a non-negative number, width 3. *)
Definition fmt3 (n : Z) : string :=
  let digits := NilZero.string_of_uint (N.to_uint (Z.abs_N n)) in
  pad_left 3 ((if bool_decide (n < 0) then "-" else " ") +:+ digits).

Section render.
Variable tc : TreeContext.
Variable st : State.

(** Body of [for i, line in enumerate(self.lines)] on [(output, dots)]. *)
Definition format_line (acc : string * bool) (il : Z * string) : string * bool :=
  let '(output, dots) := acc in
  let '(i, line) := il in
  if bool_decide (i ∉ show_lines st) then
    if dots then
      (output +:+ (if line_number (config tc)
                   then fmt3 (i + 1) +:+ "..." +:+ vdots +:+ "..." +:+ nl
                   else vdots +:+ nl),
       false)
    else (output, dots)
  else
    let spacer :=
      if bool_decide (i ∈ lines_of_interest st) && mark_lois (config tc)
      then block else bar in
    let spacer :=
      if color (config tc) && String.eqb spacer block
      then esc +:+ "[31m" +:+ spacer +:+ esc +:+ "[0m" else spacer in
    let line_output := spacer +:+ default line (output_lines st !! i) in
    let line_output :=
      if line_number (config tc) then fmt3 (i + 1) +:+ line_output
      else line_output in
    (output +:+ line_output +:+ nl, true).

Definition format : string :=
  if bool_decide (show_lines st = ∅) then EmptyString
  else
    let output := if color (config tc) then esc +:+ "[0m" +:+ nl else EmptyString in
    let dots := negb (bool_decide (0 ∈ show_lines st)) in
    fst (foldl format_line (output, dots) (enumerate (lines tc))).
End render.

(** ** Predicates of the statements *)

(** [grows st st']: the interest set and the highlights are untouched, the
    show set and the memo of processed lines only gain members. *)
Definition grows (st st' : State) : Prop :=
  lines_of_interest st' = lines_of_interest st ∧
  output_lines st' = output_lines st ∧
  show_lines st ⊆ show_lines st' ∧
  done_parent_scopes st ⊆ done_parent_scopes st'.

(** What [add_parent_scopes] does for a scope [s] of a processed line: the
    header range of [s] is shown unless it starts at the top of the file and
    the top-of-file flag is off, and, when [last_line] is on, the closing
    line of [s] is processed as well. *)
Definition scope_included (tc : TreeContext) (st : State) (s : Z) : Prop :=
  ∃ head_start head_end,
    py_get (header tc) s = Ok (head_start, head_end) ∧
    (0 < head_start ∨ show_top_of_file_parent_scope (config tc) = true →
     ∀ x, head_start ≤ x < head_end → x ∈ show_lines st) ∧
    (last_line (config tc) = true →
     ∃ last, get_last_line_of_scope tc s = Ok last ∧
             last ∈ done_parent_scopes st).

(** Every processed line outside [G] (the calls still running) has all its
    scopes included. *)
Definition closed_upto (tc : TreeContext) (G : gset Z) (st : State) : Prop :=
  ∀ j sc s,
    j ∈ done_parent_scopes st → j ∉ G →
    py_get (scopes tc) j = Ok sc → s ∈ sc → scope_included tc st s.

(** The lines that can pass the guards of [add_parent_scopes], and how many
    of them are still to be processed. *)
Definition subscripts (tc : TreeContext) : gset Z :=
  list_to_set (seqZ (- Z.of_nat (length (scopes tc)))
                    (2 * Z.of_nat (length (scopes tc)))).

Definition pending (tc : TreeContext) (st : State) : nat :=
  size (subscripts tc ∖ done_parent_scopes st).

(** A step that only adds lines and keeps the processed lines closed. *)
Definition advances (tc : TreeContext) (st st' : State) : Prop :=
  grows st st' ∧ (closed_upto tc ∅ st → closed_upto tc ∅ st').

(** [a] and [b] are neighbours in the list [l]. *)
Definition consecutive (l : list Z) (a b : Z) : Prop :=
  ∃ l1 l2, l = l1 ++ a :: b :: l2.

(** ** The tables in terms of the tree *)

(** With [ns] the nodes of the tree in the order of the traversal: the nodes
    that start on line [k], the header candidates recorded for line [k], and
    the scope starts recorded for line [k]. *)
Definition nodes_at (ns : list Node) (k : Z) : list Node :=
  filter (λ n, start_line n = k) ns.

Definition candidate_of (n : Node) : candidate :=
  (end_line n - start_line n, start_line n, end_line n).

Definition candidates_at (ns : list Node) (k : Z) : list candidate :=
  candidate_of <$> filter (λ n, start_line n = k ∧ end_line n - start_line n ≠ 0) ns.

Definition scopes_at (ns : list Node) (k : Z) : gset Z :=
  list_to_set (start_line <$> filter (λ n, start_line n ≤ k ≤ end_line n) ns).

(** Rows are unsigned in the parser's trees. *)
Definition rows_nonneg (root : Node) : Prop :=
  Forall (λ n, 0 ≤ start_line n) (find_all_children root).

(** [t'] is [t] with the entries of the nodes [ns] added. *)
Definition tables_extend (t t' : Tables) (ns : list Node) : Prop :=
  ∀ k : nat,
    t_nodes t' !! k = (λ l, l ++ nodes_at ns (Z.of_nat k)) <$> t_nodes t !! k ∧
    t_header t' !! k = (λ l, l ++ candidates_at ns (Z.of_nat k)) <$> t_header t !! k ∧
    t_scopes t' !! k = (λ X, X ∪ scopes_at ns (Z.of_nat k)) <$> t_scopes t !! k.

(** The header of line [i] as the specification words it: the candidate of
    the largest size, the first recorded among equals, cut to [header_max];
    the line alone when there is no candidate. *)
Fixpoint largest_candidate (best : candidate) (cands : list candidate) : candidate :=
  match cands with
  | [] => best
  | c :: cands' =>
      largest_candidate (if bool_decide (best.1.1 < c.1.1) then c else best) cands'
  end.

Definition spec_header (cfg : Config) (i : Z) (cands : list candidate) : Z * Z :=
  match cands with
  | [] => (i, i + 1)
  | c :: cands' =>
      let '(size, head_start, head_end) := largest_candidate c cands' in
      (head_start,
       if bool_decide (header_max cfg < size) then head_start + header_max cfg
       else head_end)
  end.

(** ** Predicates of the further properties *)

(** The rows of every node are in order, and below [num]. *)
Definition rows_ordered (root : Node) : Prop :=
  Forall (λ n, start_line n ≤ end_line n) (find_all_children root).

Definition rows_within (num : Z) (root : Node) : Prop :=
  Forall (λ n, start_line n < num ∧ end_line n < num) (find_all_children root).

(** A result that is a value or an [IndexError]. *)
Definition ok_or_index_error {A} (r : res A) : Prop :=
  (∃ a, r = Ok a) ∨ r = Raise IndexError.

(** A result that is not an exception. *)
Definition no_raise {A} (r : res A) : Prop := ∀ e, r ≠ Raise e.

(** The three tables have [n] entries each. *)
Definition tables_len (t : Tables) (n : nat) : Prop :=
  length (t_scopes t) = n ∧ length (t_header t) = n ∧ length (t_nodes t) = n.

(** A subscript that Python accepts for the per-line tables. *)
Definition in_tables (tc : TreeContext) (i : Z) : Prop :=
  - num_lines tc ≤ i < num_lines tc.

(** What the expander relies on in the tables: they have [num_lines] entries;
    every recorded scope start is a line of the tables on which a node starts
    and whose last line is not negative; the nodes recorded have descendants
    of non-negative start rows only. *)
Definition tables_ok (tc : TreeContext) : Prop :=
  Z.of_nat (length (scopes tc)) = num_lines tc ∧
  Z.of_nat (length (header tc)) = num_lines tc ∧
  Z.of_nat (length (nodes tc)) = num_lines tc ∧
  (∀ (k : nat) sc s, scopes tc !! k = Some sc → s ∈ sc →
     0 ≤ s < num_lines tc ∧
     ∃ last, get_last_line_of_scope tc s = Ok last ∧ 0 ≤ last) ∧
  (∀ (k : nat) ns n c, nodes tc !! k = Some ns → n ∈ ns →
     c ∈ find_all_children n → 0 ≤ start_line c).

(** [x] lies in a header range that [add_parent_scopes] may show. *)
Definition header_line (tc : TreeContext) (x : Z) : Prop :=
  ∃ s head_start head_end,
    py_get (header tc) s = Ok (head_start, head_end) ∧
    head_start ≤ x < head_end ∧
    (0 < head_start ∨ show_top_of_file_parent_scope (config tc) = true).

(** From [st] to [st'] the show set gains lines satisfying [P] only. *)
Definition adds_only (P : Z → Prop) (st st' : State) : Prop :=
  ∀ x, x ∈ show_lines st' → x ∈ show_lines st ∨ P x.

(** The reasons for which [add_context] shows a line before gap closing:
    a line of interest, its padding, the bottom line, a header line, a line
    of a small scope starting at a line of interest, the margin. *)
Definition accounted (tc : TreeContext) (loi : gset Z) (x : Z) : Prop :=
  x ∈ loi ∨
  (∃ l, l ∈ loi ∧ l - loi_pad (config tc) ≤ x ≤ l + loi_pad (config tc) ∧
        0 ≤ x < num_lines tc) ∨
  (last_line (config tc) = true ∧ x = num_lines tc - 2) ∨
  header_line tc x ∨
  (child_context (config tc) = true ∧
   ∃ i last, i ∈ loi ∧ get_last_line_of_scope tc i = Ok last ∧ last - i < 5 ∧
             i ≤ x ≤ last) ∨
  0 ≤ x < margin (config tc).

(** ** Concrete files used below *)

(** What [init] returned, for a construction known to succeed. *)
Definition constructed (r : res TreeContext) : TreeContext :=
  match r with
  | Ok tc => tc
  | _ => {| config := default_config; lines := []; scopes := []; header := [];
            nodes := [] |}
  end.

Definition ten_lines : list string := replicate 10 "x"%string.

(** Ten lines; the root spans rows 0 to 10 and the first statement rows 0
    to 3, so two multi-line constructs start on line 0. *)
Definition nested_root : Node := mkNode 0 10 [mkNode 0 3 []].
Definition nested_tc : TreeContext :=
  constructed (init default_config ten_lines nested_root).

(** Ten lines; a block on rows 5 to 7 below the root. *)
Definition block_root : Node := mkNode 0 10 [mkNode 5 7 []].
Definition block_tc : TreeContext :=
  constructed (init default_config ten_lines block_root).

(** Ten lines; a block on rows 5 to 10 that ends with the root; [last_line]
    is off. *)
Definition tail_root : Node := mkNode 0 10 [mkNode 5 10 []].
Definition tail_tc : TreeContext :=
  constructed (init {| color := false; line_number := false; parent_context := true;
                       child_context := true; last_line := false; margin := 3;
                       mark_lois := true; header_max := 10;
                       show_top_of_file_parent_scope := true; loi_pad := 1 |}
                    ten_lines tail_root).

(** Ten lines, the eighth (line 7) empty; the tree is the root alone. *)
Definition gap_lines : list string :=
  replicate 7 "x"%string ++ [EmptyString] ++ replicate 2 "x"%string.
Definition gap_tc : TreeContext :=
  constructed (init default_config gap_lines (mkNode 0 10 [])).

(** One line; the root ends on row 1, the virtual line after a final line
    break. Padding, margin, last line and parent scopes are switched off. *)
Definition bare_config : Config :=
  {| color := false; line_number := false; parent_context := false;
     child_context := true; last_line := false; margin := 0; mark_lois := true;
     header_max := 10; show_top_of_file_parent_scope := true; loi_pad := 0 |}.
Definition virtual_tc : TreeContext :=
  constructed (init bare_config ["x"%string] (mkNode 0 1 [])).

(** The scenario of the specification: twenty lines, a function on rows 2 to
    18 with a block on rows 10 and 11; no padding, margin or last line. *)
Definition scenario_root : Node := mkNode 0 20 [mkNode 2 18 [mkNode 10 11 []]].
Definition scenario_tc : TreeContext :=
  constructed (init {| color := false; line_number := false; parent_context := true;
                       child_context := true; last_line := false; margin := 0;
                       mark_lois := true; header_max := 10;
                       show_top_of_file_parent_scope := true; loi_pad := 0 |}
                    (replicate 20 "x"%string) scenario_root).

Definition interest (X : gset Z) : State := add_lines_of_interest X init_state.

(** * Verification *)

(** ** Reasoning about [res] and loops *)

Lemma bind_Ok {A B} (m : res A) (f : A → res B) (b : B) :
  m ≫= f = Ok b ↔ ∃ a, m = Ok a ∧ f a = Ok b.
Proof.
  destruct m as [a| |]; simpl; split; try (intros (? & ? & ?)); eauto; try done.
  by simplify_eq.
Qed.

Ltac inv_res :=
  repeat match goal with
  | H : Ok _ = Ok _ |- _ => injection H as H; try subst
  | H : Raise _ = Ok _ |- _ => discriminate H
  | H : OutOfFuel = Ok _ |- _ => discriminate H
  | H : mret _ = Ok _ |- _ => injection H as H; try subst
  | H : _ ≫= _ = Ok _ |- _ =>
      let a := fresh "r" in
      let Ha := fresh "Hr" in
      apply bind_Ok in H as (a & Ha & H)
  end.

Section for_each_facts.
Context {A S : Type} (body : A → S → res S).
Context (R : S → S → Prop) `{!PreOrder R}.

Lemma for_each_preserves (l : list A) :
  (∀ x s s', x ∈ l → body x s = Ok s' → R s s') →
  ∀ s s', for_each body l s = Ok s' → R s s'.
Proof.
  induction l as [|x l IH]; intros Hbody s s' Hrun; simpl in Hrun.
  - by inv_res.
  - inv_res. transitivity r.
    + eapply Hbody; [left | done].
    + apply IH; [|done]. intros. eapply Hbody; [by right | done].
Qed.

(** The iteration for a member [x] of [l] runs between two states of the
    loop. *)
Lemma for_each_member (l : list A) (x : A) :
  (∀ y s s', y ∈ l → body y s = Ok s' → R s s') →
  x ∈ l →
  ∀ s s', for_each body l s = Ok s' →
  ∃ sa sb, R s sa ∧ body x sa = Ok sb ∧ R sb s'.
Proof.
  induction l as [|y l IH]; intros Hbody Hx s s' Hrun; [by inversion Hx|].
  simpl in Hrun. inv_res.
  apply elem_of_cons in Hx as [->|Hx].
  - exists s, r. split_and!; [done | done |].
    eapply for_each_preserves; [|done]. intros. eapply Hbody; [by right|done].
  - destruct (IH (λ z s1 s2 Hz, Hbody z s1 s2 (list_elem_of_further _ _ _ Hz)) Hx r s' Hrun)
      as (sa & sb & ? & ? & ?).
    exists sa, sb. split_and!; [|done|done].
    transitivity r; [|done]. eapply Hbody; [left | done].
Qed.
End for_each_facts.

Lemma elem_of_range (a b x : Z) : x ∈ range a b ↔ a ≤ x < b.
Proof. unfold range. rewrite elem_of_seqZ. lia. Qed.

Lemma elem_of_update (s : gset Z) (l : list Z) (x : Z) :
  x ∈ update s l ↔ x ∈ l ∨ x ∈ s.
Proof. unfold update. set_solver. Qed.

(** ** The expansion only adds lines *)

#[global] Instance grows_preorder : PreOrder grows.
Proof.
  split.
  - by intros st.
  - intros a b c (Ha1 & Ha2 & Ha3 & Ha4) (Hb1 & Hb2 & Hb3 & Hb4).
    split_and!; [congruence | congruence | |]; by etransitivity.
Qed.

Lemma grows_set_show st X : show_lines st ⊆ X → grows st (set_show st X).
Proof. intros; by split_and!. Qed.

Lemma grows_set_done st X : done_parent_scopes st ⊆ X → grows st (set_done st X).
Proof. intros; by split_and!. Qed.

Section expander_facts.
Variable tc : TreeContext.

Lemma parent_scope_step_grows rec line_num st st' :
  (∀ i s s', rec i s = Ok s' → grows s s') →
  parent_scope_step tc rec line_num st = Ok st' → grows st st'.
Proof.
  intros Hrec Hstep. unfold parent_scope_step in Hstep.
  inv_res. destruct r as [head_start head_end].
  set (st1 := if _ || _ then _ else st) in Hstep.
  assert (grows st st1) as Hst1.
  { subst st1. destruct (_ || _); [|reflexivity].
    apply grows_set_show. intros x. rewrite elem_of_update. auto. }
  destruct (last_line (config tc)); inv_res; [|done].
  transitivity st1; eauto.
Qed.

Lemma add_parent_scopes_grows fuel i st st' :
  add_parent_scopes tc fuel i st = Ok st' → grows st st'.
Proof.
  revert i st st'. induction fuel as [|fuel IH]; intros i st st' Hrun; [done|].
  simpl in Hrun. case_bool_decide; inv_res; [reflexivity|].
  assert (grows st (set_done st ({[i]} ∪ done_parent_scopes st))) as Hst1
    by (apply grows_set_done; set_solver).
  case_bool_decide; inv_res; [done|].
  transitivity (set_done st ({[i]} ∪ done_parent_scopes st)); [done|].
  eapply (for_each_preserves _ grows); [|done].
  intros. eapply parent_scope_step_grows; [|done]. eauto.
Qed.

Lemma show_children_grows sz cur cs st st' :
  show_children tc sz cur cs st = Ok st' → grows st st'.
Proof.
  revert st. induction cs as [|c cs IH]; intros st Hrun; simpl in Hrun.
  - inv_res. reflexivity.
  - destruct (over_budget _ _ _); inv_res; [reflexivity|].
    transitivity r; [eapply add_parent_scopes_grows; eassumption | by apply IH].
Qed.

Lemma add_child_context_grows i st st' :
  add_child_context tc i st = Ok st' → grows st st'.
Proof.
  unfold add_child_context. intros Hrun. inv_res.
  destruct r as [|n ns]; inv_res; [reflexivity|].
  case_bool_decide; inv_res.
  - apply grows_set_show. intros x. rewrite elem_of_update. auto.
  - eapply show_children_grows; eassumption.
Qed.

Lemma fill_gaps_subseteq l X : X ⊆ fill_gaps l X.
Proof.
  revert X. induction l as [|a [|b l] IH]; intros X; simpl; [done..|].
  etransitivity; [|apply IH]. case_bool_decide; set_solver.
Qed.

Lemma attach_blank_subseteq il X X' :
  attach_blank tc il X = Ok X' → X ⊆ X'.
Proof.
  destruct il as [i line]. unfold attach_blank. intros Hrun.
  case_bool_decide; inv_res; [done|].
  destruct (negb _ && _); inv_res; [|done].
  destruct (blank _); inv_res; set_solver.
Qed.

Lemma close_small_gaps_grows st st' :
  close_small_gaps tc st = Ok st' → grows st st'.
Proof.
  unfold close_small_gaps. intros Hrun. inv_res.
  apply grows_set_show. etransitivity; [apply fill_gaps_subseteq|].
  eapply (for_each_preserves _ (⊆)); [|done].
  intros. by eapply attach_blank_subseteq.
Qed.
End expander_facts.

Section expand_facts.
Variable tc : TreeContext.

Lemma pad_line_subseteq line X : X ⊆ pad_line tc line X.
Proof.
  unfold pad_line. generalize (range (line - loi_pad (config tc))
                                     (line + loi_pad (config tc) + 1)).
  intros l. revert X. induction l as [|x l IH]; intros X; simpl; [done|].
  etransitivity; [|apply IH]. destruct (_ || _); set_solver.
Qed.

Lemma pad_all_subseteq l X :
  X ⊆ foldl (λ acc line, pad_line tc line acc) X l.
Proof.
  revert X. induction l as [|x l IH]; intros X; simpl; [done|].
  etransitivity; [apply (pad_line_subseteq x)|apply IH].
Qed.

(** The stages of [expand]: everything up to the child context only adds
    lines, and so does everything after it. *)
Lemma expand_stages st0 st' :
  expand tc st0 = Ok st' →
  ∃ st3 st4,
    grows st0 st3 ∧
    (if child_context (config tc)
     then for_each (add_child_context tc) (elements (lines_of_interest st0)) st3
     else Ok st3) = Ok st4 ∧
    grows st4 st'.
Proof.
  unfold expand. intros Hrun.
  set (st1 := if bool_decide (loi_pad (config tc) = 0) then st0 else _) in Hrun.
  assert (grows st0 st1) as H01.
  { subst st1. destruct (bool_decide (loi_pad (config tc) = 0)); [reflexivity|].
    apply grows_set_show, pad_all_subseteq. }
  apply bind_Ok in Hrun as (st2 & H2 & Hrun).
  apply bind_Ok in Hrun as (st3 & H3 & Hrun).
  apply bind_Ok in Hrun as (st4 & H4 & Hrun).
  assert (grows st1 st2) as H12.
  { destruct (last_line (config tc)); inv_res; [|reflexivity].
    etransitivity; [|eapply add_parent_scopes_grows; eassumption].
    apply grows_set_show. set_solver. }
  assert (grows st2 st3) as H23.
  { destruct (parent_context (config tc)); inv_res; [|reflexivity].
    eapply (for_each_preserves _ grows); [|eassumption].
    intros. eapply add_parent_scopes_grows; eassumption. }
  exists st3, st4. split_and!; [by repeat (etransitivity; [eassumption|]) | done |].
  etransitivity; [|eapply close_small_gaps_grows; eassumption].
  destruct (bool_decide (margin (config tc) = 0)); [reflexivity|].
  apply grows_set_show. intros x. rewrite elem_of_update. auto.
Qed.

Lemma child_stage_grows (loi : list Z) st3 st4 :
  (if child_context (config tc)
   then for_each (add_child_context tc) loi st3 else Ok st3) = Ok st4 →
  grows st3 st4.
Proof.
  destruct (child_context (config tc)); intros; inv_res; [|reflexivity].
  eapply (for_each_preserves _ grows); [|eassumption].
  intros. eapply add_child_context_grows; eassumption.
Qed.

Lemma expand_grows st0 st' : expand tc st0 = Ok st' → grows st0 st'.
Proof.
  intros (st3 & st4 & ? & ? & ?)%expand_stages.
  transitivity st3; [done|]. transitivity st4; [|done].
  eapply child_stage_grows; eassumption.
Qed.

Lemma add_context_lines_of_interest st st' :
  add_context tc st = Ok st' → lines_of_interest st' = lines_of_interest st.
Proof.
  unfold add_context. case_bool_decide; intros; inv_res; [done|].
  by apply expand_grows in H0 as (? & _).
Qed.

(** In every state of a session, an empty interest set means an empty show
    set. *)
Lemma session_empty_show cs st :
  session tc cs = Ok st → lines_of_interest st = ∅ → show_lines st = ∅.
Proof.
  unfold session. intros Hrun.
  set (R := λ s s' : State,
         (lines_of_interest s = ∅ → show_lines s = ∅) →
         lines_of_interest s' = ∅ → show_lines s' = ∅).
  assert (PreOrder R) as HR.
  { split; [intros s | intros a b c]; unfold R; auto. }
  assert (R init_state st) as Hst; [|by apply Hst].
  eapply (for_each_preserves (run_call tc) R); [|exact Hrun].
  intros [X|] s s' _ Hcall Hs Hloi; simpl in Hcall.
  - inv_res. simpl in *. apply Hs. set_solver.
  - pose proof (add_context_lines_of_interest _ _ Hcall) as Heq.
    unfold add_context in Hcall. case_bool_decide; inv_res; [auto|].
    congruence.
Qed.
End expand_facts.

(** ** Claims on [add_context] *)

Example init_nested_tc : init default_config ten_lines nested_root = Ok nested_tc.
Proof. vm_compute. reflexivity. Qed.

Example init_block_tc : init default_config ten_lines block_root = Ok block_tc.
Proof. vm_compute. reflexivity. Qed.

(** The scenario of the specification: the line of interest 10, the header
    lines 0 and 2 of its scopes, line 11 of the small block, and line 1, the
    one-line gap between the two headers. *)
Example scenario_show_lines :
  ∃ st', add_context scenario_tc (interest {[ 10 ]}) = Ok st' ∧
         sorted (show_lines st') = [0; 1; 2; 10; 11].
Proof. eexists. split; vm_compute; reflexivity. Qed.

(** C3. After [add_context] ([expand_context]) returns, the interest set is
    as it was and every line of interest is in the show set, whatever the
    interest set and the configuration. *)
Theorem lines_of_interest_shown (tc : TreeContext) (st st' : State) :
  add_context tc st = Ok st' →
  lines_of_interest st' = lines_of_interest st ∧
  lines_of_interest st ⊆ show_lines st'.
Proof.
  unfold add_context. case_bool_decide as Hloi; intros Hrun; inv_res.
  - split; [done|]. rewrite Hloi. set_solver.
  - apply expand_grows in Hrun as (Heq & _ & Hshow & _). by split.
Qed.

Lemma lines_of_interest_shown_witness :
  ∃ st', add_context block_tc (interest {[ 5; 8 ]}) = Ok st' ∧
         (lines_of_interest st' = lines_of_interest (interest {[ 5; 8 ]}) ∧
          lines_of_interest (interest {[ 5; 8 ]}) ⊆ show_lines st').
Proof.
  eexists. split; [vm_compute; reflexivity|].
  apply (lines_of_interest_shown block_tc (interest {[ 5; 8 ]})).
  vm_compute. reflexivity.
Defined.

(** C7. A second [add_context] with the interest set unchanged returns and
    leaves the show set (indeed the whole state) as the first call left it. *)
Theorem add_context_idempotent (tc : TreeContext) (st st1 : State) :
  add_context tc st = Ok st1 →
  ∃ st2, add_context tc st1 = Ok st2 ∧ show_lines st2 = show_lines st1.
Proof.
  intros Hrun. exists st1. split; [|done].
  pose proof Hrun as Hrun'. unfold add_context in Hrun.
  case_bool_decide as Hloi; inv_res; [done|].
  apply expand_grows in Hrun as Hg. destruct Hg as (Hl & Ho & _).
  simpl in Hl, Ho. unfold add_context. rewrite Hl.
  rewrite bool_decide_eq_false_2 by done.
  etransitivity; [|exact Hrun].
  f_equal. unfold set_show, set_done. simpl. by rewrite Hl, Ho.
Qed.

Lemma add_context_idempotent_witness :
  ∃ st1, add_context block_tc (interest {[ 5; 8 ]}) = Ok st1 ∧
         ∃ st2, add_context block_tc st1 = Ok st2 ∧
                show_lines st2 = show_lines st1.
Proof.
  eexists. split; [vm_compute; reflexivity|].
  apply (add_context_idempotent block_tc (interest {[ 5; 8 ]})).
  vm_compute. reflexivity.
Defined.

(** C8. With an empty interest set, at any point of a session, [add_context]
    returns at once, the show set is and stays empty, and [format] returns the
    empty string. *)
Theorem empty_interest_shows_nothing (tc : TreeContext) (cs : list call) (st : State) :
  session tc cs = Ok st →
  lines_of_interest st = ∅ →
  ∃ st', add_context tc st = Ok st' ∧ show_lines st' = ∅ ∧
         format tc st' = EmptyString.
Proof.
  intros Hses Hloi. exists st.
  pose proof (session_empty_show tc cs st Hses Hloi) as Hshow.
  split_and!.
  - unfold add_context. by rewrite bool_decide_eq_true_2.
  - done.
  - unfold format. by rewrite bool_decide_eq_true_2.
Qed.

Lemma empty_interest_shows_nothing_witness :
  ∃ st', add_context block_tc init_state = Ok st' ∧ show_lines st' = ∅ ∧
         format block_tc st' = EmptyString.
Proof.
  apply (empty_interest_shows_nothing block_tc [AddContext; AddLinesOfInterest ∅]);
    vm_compute; reflexivity.
Defined.

(** C4 as stated fails: line 0 of [nested_tc] starts the construct on rows 0
    to 3 (3 - 0 < 5), line 0 is of interest, and line 3 is not shown: the
    root also starts on line 0 and ends on row 10, and [add_child_context]
    measures the scope by the largest end row. *)
Lemma small_scope_counterexample :
  ∃ st', child_context (config nested_tc) = true ∧
         add_context nested_tc (interest {[ 0 ]}) = Ok st' ∧
         0 ∈ lines_of_interest st' ∧
         py_get (nodes nested_tc) 0 = Ok [nested_root; mkNode 0 3 []] ∧
         end_line (mkNode 0 3 []) - 0 < 5 ∧
         (3 ∉ show_lines st').
Proof.
  eexists. split_and!; [reflexivity | vm_compute; reflexivity | compute_done..].
Qed.

Lemma get_last_line_of_scope_inv tc i last :
  get_last_line_of_scope tc i = Ok last →
  ∃ n ns, py_get (nodes tc) i = Ok (n :: ns) ∧
          last = foldl (λ m n', Z.max m (end_line n')) (end_line n) ns.
Proof.
  unfold get_last_line_of_scope. intros Hrun. inv_res.
  destruct r as [|n ns]; inv_res. eauto.
Qed.

Lemma foldl_max_ge (ns : list Node) (m : Z) :
  m ≤ foldl (λ m n', Z.max m (end_line n')) m ns ∧
  ∀ n, n ∈ ns → end_line n ≤ foldl (λ m n', Z.max m (end_line n')) m ns.
Proof.
  revert m. induction ns as [|n ns IH]; intros m; simpl.
  - split; [lia | by intros ? ?%elem_of_nil].
  - destruct (IH (Z.max m (end_line n))) as [IH1 IH2]. split; [lia|].
    intros n' [->|Hn']%elem_of_cons; [lia | auto].
Qed.

(** The last line of a scope bounds the end row of every node starting there. *)
Lemma get_last_line_of_scope_bound tc i ns last n :
  py_get (nodes tc) i = Ok ns →
  get_last_line_of_scope tc i = Ok last →
  n ∈ ns → end_line n ≤ last.
Proof.
  intros Hns (n0 & ns0 & Hget & ->)%get_last_line_of_scope_inv Hn.
  rewrite Hns in Hget. inv_res.
  destruct (foldl_max_ge ns0 (end_line n0)) as [H0 Hrest].
  apply elem_of_cons in Hn as [->|Hn]; auto.
Qed.

(** C4, amended. If a line of interest [i] starts constructs and the scope of
    [i] is small, its last line (the largest end row of the constructs
    starting at [i]) being less than 5 lines below [i], then after
    [add_context] returns with [child_context] enabled every line of
    [[i, last]] is shown; these are the lines of every construct starting
    at [i]. *)
Theorem small_scope_shown (tc : TreeContext) (st st' : State) (i last : Z) :
  child_context (config tc) = true →
  add_context tc st = Ok st' →
  i ∈ lines_of_interest st →
  get_last_line_of_scope tc i = Ok last →
  last - i < 5 →
  (∀ j, i ≤ j ≤ last → j ∈ show_lines st') ∧
  (∀ ns n j, py_get (nodes tc) i = Ok ns → n ∈ ns → i ≤ j ≤ end_line n →
             j ∈ show_lines st').
Proof.
  intros Hchild Hrun Hi Hlast Hsmall.
  assert (∀ j, i ≤ j ≤ last → j ∈ show_lines st') as Hrange.
  { intros j Hj. unfold add_context in Hrun. case_bool_decide as Hloi.
    { rewrite Hloi in Hi. by apply not_elem_of_empty in Hi. }
    apply expand_stages in Hrun as (st3 & st4 & _ & Hstage & H4).
    rewrite Hchild in Hstage. simpl in Hstage.
    assert (i ∈ elements (lines_of_interest st)) as Hi' by by apply elem_of_elements.
    destruct (for_each_member (add_child_context tc) grows _ i
                (λ y s s' _ H, add_child_context_grows tc y s s' H)
                Hi' _ _ Hstage)
      as (sa & sb & _ & Hchild_i & Hb4).
    destruct H4 as (_ & _ & H4 & _). destruct Hb4 as (_ & _ & Hb4 & _).
    apply H4, Hb4. clear H4 Hb4 Hstage.
    unfold add_child_context in Hchild_i.
    apply get_last_line_of_scope_inv in Hlast as Hnodes.
    destruct Hnodes as (n & ns & Hget & _).
    rewrite Hget in Hchild_i. simpl in Hchild_i. rewrite Hlast in Hchild_i.
    simpl in Hchild_i. rewrite bool_decide_eq_true_2 in Hchild_i by done.
    inv_res. simpl. apply elem_of_update. left. apply elem_of_range. lia. }
  split; [done|]. intros ns n j Hns Hn Hj. apply Hrange.
  pose proof (get_last_line_of_scope_bound _ _ _ _ _ Hns Hlast Hn). lia.
Qed.

Lemma small_scope_shown_witness :
  ∃ st', add_context block_tc (interest {[ 5 ]}) = Ok st' ∧
         get_last_line_of_scope block_tc 5 = Ok 7 ∧
         ((∀ j, 5 ≤ j ≤ 7 → j ∈ show_lines st') ∧
          (∀ ns n j, py_get (nodes block_tc) 5 = Ok ns → n ∈ ns →
                     5 ≤ j ≤ end_line n → j ∈ show_lines st')).
Proof.
  eexists. split; [vm_compute; reflexivity|]. split; [vm_compute; reflexivity|].
  apply (small_scope_shown block_tc (interest {[ 5 ]}) _ 5 7);
    [vm_compute; reflexivity | vm_compute; reflexivity | compute_done
    | vm_compute; reflexivity | lia].
Defined.

(** C2. An interest line past the end of the tables is not clipped by
    [add_child_context], which subscripts [self.nodes] with it: under the
    default configuration [add_context] raises [IndexError]. A line below
    [-num_lines] does the same in [add_parent_scopes], whose guard only
    looks at the upper end. *)
Theorem out_of_range_interest_raises :
  add_context block_tc (interest {[ 50 ]}) = Raise IndexError ∧
  add_context block_tc (interest {[ -50 ]}) = Raise IndexError.
Proof. split; vm_compute; reflexivity. Qed.

(** ** [add_parent_scopes] returns: the fuel is never used up *)

Lemma bind_fuel {A B} (m : res A) (f : A → res B) :
  m ≠ OutOfFuel → (∀ a, m = Ok a → f a ≠ OutOfFuel) → m ≫= f ≠ OutOfFuel.
Proof. destruct m; simpl; eauto. Qed.

Lemma for_each_fuel {A S} (body : A → S → res S) (P : S → Prop) (l : list A) :
  (∀ x s, P s → body x s ≠ OutOfFuel) →
  (∀ x s s', P s → body x s = Ok s' → P s') →
  ∀ s, P s → for_each body l s ≠ OutOfFuel.
Proof.
  intros Hbody HP. induction l as [|x l IH]; intros s Hs; simpl; [done|].
  apply bind_fuel; eauto.
Qed.

Lemma py_index_Ok {A} (l : list A) (i : Z) (k : nat) :
  py_index l i = Ok k →
  (k < length l)%nat ∧ - Z.of_nat (length l) ≤ i < Z.of_nat (length l) ∧
  (Z.of_nat k = i ∨ Z.of_nat k = Z.of_nat (length l) + i).
Proof.
  unfold py_index. repeat case_bool_decide; intros; inv_res; lia.
Qed.

Lemma py_get_Ok {A} (l : list A) (i : Z) (x : A) :
  py_get l i = Ok x →
  - Z.of_nat (length l) ≤ i < Z.of_nat (length l) ∧ ∃ k, py_index l i = Ok k ∧ l !! k = Some x.
Proof.
  unfold py_get. intros Hget. inv_res.
  destruct (l !! r) eqn:Hl; inv_res.
  apply py_index_Ok in Hr as Hk. split; [lia | eauto].
Qed.

Lemma py_get_fuel {A} (l : list A) (i : Z) : py_get l i ≠ OutOfFuel.
Proof.
  unfold py_get, py_index. repeat case_bool_decide; simpl; try done;
    by destruct (l !! _).
Qed.

Section fuel.
Variable tc : TreeContext.

Lemma get_last_line_of_scope_fuel i : get_last_line_of_scope tc i ≠ OutOfFuel.
Proof.
  unfold get_last_line_of_scope. apply bind_fuel; [apply py_get_fuel|].
  by intros [|??] _.
Qed.

Lemma pending_mono st st' : grows st st' → (pending tc st' ≤ pending tc st)%nat.
Proof.
  intros (_ & _ & _ & Hdone). unfold pending.
  apply subseteq_size. set_solver.
Qed.

Lemma add_parent_scopes_fuel_aux fuel i st :
  (pending tc st < fuel)%nat → add_parent_scopes tc fuel i st ≠ OutOfFuel.
Proof.
  revert i st. induction fuel as [|fuel IH]; intros i st Hfuel; [lia|].
  simpl. case_bool_decide as Hdone; [done|].
  case_bool_decide as Hlen; [done|].
  apply bind_fuel; [apply py_get_fuel|]. intros sc [Hi _]%py_get_Ok.
  assert (pending tc (set_done st ({[i]} ∪ done_parent_scopes st)) < pending tc st)%nat
    as Hless.
  { unfold pending. apply subset_size.
    assert (i ∈ subscripts tc) as HiU
      by (apply elem_of_list_to_set, elem_of_seqZ; lia).
    split; [simpl; set_solver|].
    intros Hsub. specialize (Hsub i). simpl in Hsub. set_solver. }
  apply (for_each_fuel _ (λ s, (pending tc s < fuel)%nat)); [| |lia].
  - intros line_num s Hs. unfold parent_scope_step.
    apply bind_fuel; [apply py_get_fuel|]. intros [hs he] _.
    destruct (last_line (config tc)); [|done].
    apply bind_fuel; [apply get_last_line_of_scope_fuel|]. intros last _.
    apply IH. by destruct (_ || _).
  - intros line_num s s' Hs Hstep.
    apply parent_scope_step_grows in Hstep.
    + apply pending_mono in Hstep. lia.
    + intros. eapply add_parent_scopes_grows; eassumption.
Qed.

Local Transparent enough_fuel.

Lemma add_parent_scopes_fuel i st :
  add_parent_scopes tc (enough_fuel tc) i st ≠ OutOfFuel.
Proof.
  apply add_parent_scopes_fuel_aux.
  assert (pending tc st ≤ size (subscripts tc))%nat as Hle
    by (unfold pending; apply subseteq_size; set_solver).
  assert (size (subscripts tc) = 2 * length (scopes tc))%nat as Hsize.
  { unfold subscripts. rewrite size_list_to_set by apply NoDup_seqZ.
    rewrite length_seqZ. lia. }
  unfold enough_fuel. lia.
Qed.

Lemma show_children_fuel sz cur cs st :
  show_children tc sz cur cs st ≠ OutOfFuel.
Proof.
  revert st. induction cs as [|c cs IH]; intros st; simpl; [done|].
  destruct (over_budget _ _ _); [done|].
  apply bind_fuel; [apply add_parent_scopes_fuel | auto].
Qed.

Lemma add_child_context_fuel i st : add_child_context tc i st ≠ OutOfFuel.
Proof.
  unfold add_child_context. apply bind_fuel; [apply py_get_fuel|].
  intros [|n ns] _; [done|].
  apply bind_fuel; [apply get_last_line_of_scope_fuel|]. intros last _.
  case_bool_decide; [done | apply show_children_fuel].
Qed.

Lemma close_small_gaps_fuel st : close_small_gaps tc st ≠ OutOfFuel.
Proof.
  unfold close_small_gaps. apply bind_fuel; [|done].
  apply (for_each_fuel _ (λ _, True)); [|done..].
  intros [i line] X _. unfold attach_blank. case_bool_decide; [done|].
  apply bind_fuel; [apply py_get_fuel|]. intros cur _.
  destruct (negb _ && _); [|done].
  apply bind_fuel; [apply py_get_fuel|]. intros next _. by destruct (blank next).
Qed.

(** [add_context] returns or raises: the recursion of [add_parent_scopes]
    always ends within [enough_fuel] nested calls. *)
Lemma add_context_fuel st : add_context tc st ≠ OutOfFuel.
Proof.
  unfold add_context. case_bool_decide; [done|]. unfold expand.
  apply bind_fuel.
  { destruct (last_line (config tc)); [apply add_parent_scopes_fuel | done]. }
  intros st2 _. apply bind_fuel.
  { destruct (parent_context (config tc)); [|done].
    apply (for_each_fuel _ (λ _, True)); [|done..].
    intros. apply add_parent_scopes_fuel. }
  intros st3 _. apply bind_fuel.
  { destruct (child_context (config tc)); [|done].
    apply (for_each_fuel _ (λ _, True)); [|done..].
    intros. apply add_child_context_fuel. }
  intros st4 _. apply close_small_gaps_fuel.
Qed.
End fuel.

(** ** The processed lines are closed under "closing line of a scope" *)

Section closure.
Variable tc : TreeContext.

Lemma scope_included_mono st st' s :
  grows st st' → scope_included tc st s → scope_included tc st' s.
Proof.
  intros (_ & _ & Hshow & Hdone) (hs & he & Hhead & Hrange & Hlast).
  exists hs, he. split_and!; [done | |].
  - intros Hcond x Hx. apply Hshow. auto.
  - intros Hon. destruct (Hlast Hon) as (last & ? & ?).
    exists last. split; [done|]. by apply Hdone.
Qed.

Lemma closed_upto_set_show G st X :
  show_lines st ⊆ X → closed_upto tc G st → closed_upto tc G (set_show st X).
Proof.
  intros HX Hclosed j sc s Hj HG Hsc Hs.
  eapply scope_included_mono; [by apply grows_set_show|].
  eapply Hclosed; eauto.
Qed.

Lemma parent_scope_loop_closed rec G :
  (∀ i s s', rec i s = Ok s' →
     grows s s' ∧
     (closed_upto tc G s → closed_upto tc G s' ∧ i ∈ done_parent_scopes s')) →
  ∀ l s s',
    for_each (parent_scope_step tc rec) l s = Ok s' →
    closed_upto tc G s →
    closed_upto tc G s' ∧ ∀ x, x ∈ l → scope_included tc s' x.
Proof.
  intros Hrec. induction l as [|x l IH]; intros s s' Hrun Hclosed; simpl in Hrun.
  { inv_res. split; [done | by intros ? ?%elem_of_nil]. }
  apply bind_Ok in Hrun as (r & Hstep & Hrun).
  assert (grows r s') as Hrs'.
  { eapply (for_each_preserves _ grows); [|exact Hrun].
    intros. eapply parent_scope_step_grows; [|eassumption].
    intros ??? H'. apply Hrec in H'. tauto. }
  assert (closed_upto tc G r ∧ scope_included tc r x) as [Hr Hx].
  { unfold parent_scope_step in Hstep.
    apply bind_Ok in Hstep as ([hs he] & Hhead & Hstep).
    set (st1 := if _ || _ then _ else s) in Hstep.
    assert (closed_upto tc G st1) as Hst1.
    { subst st1. destruct (_ || _); [|done].
      apply closed_upto_set_show; [|done].
      intros y. rewrite elem_of_update. auto. }
    assert (0 < hs ∨ show_top_of_file_parent_scope (config tc) = true →
            ∀ y, hs ≤ y < he → y ∈ show_lines st1) as Hshown.
    { intros Hcond y Hy. subst st1.
      rewrite (proj2 (orb_true_iff _ _)).
      - simpl. apply elem_of_update. left. by apply elem_of_range.
      - destruct Hcond as [?| ->]; [left; by apply bool_decide_eq_true_2 | by right]. }
    destruct (last_line (config tc)) eqn:Hlast.
    - apply bind_Ok in Hstep as (last & Hget & Hstep).
      destruct (Hrec _ _ _ Hstep) as [(_ & _ & Hshow & _) Hcl].
      destruct (Hcl Hst1) as [Hr Hdone]. split; [done|].
      exists hs, he. split_and!; [done | | by eauto].
      intros Hcond y Hy. apply Hshow. auto.
    - injection Hstep as <-. split; [done|].
      exists hs, he. split_and!; [done | done | congruence]. }
  destruct (IH _ _ Hrun Hr) as [Hs' Hl]. split; [done|].
  intros y [->|Hy]%elem_of_cons; [|auto].
  by eapply scope_included_mono.
Qed.

Lemma add_parent_scopes_closed fuel i st st' G :
  add_parent_scopes tc fuel i st = Ok st' →
  closed_upto tc G st →
  closed_upto tc G st' ∧ i ∈ done_parent_scopes st'.
Proof.
  revert i st st' G. induction fuel as [|fuel IH]; intros i st st' G Hrun Hclosed;
    [done|].
  simpl in Hrun. case_bool_decide as Hdone; inv_res; [done|].
  set (st1 := set_done st ({[i]} ∪ done_parent_scopes st)) in *.
  assert (grows st st1) as Hgrow by (apply grows_set_done; set_solver).
  assert (closed_upto tc (G ∪ {[i]}) st1) as Hst1.
  { intros j sc s Hj HG Hsc Hs. eapply scope_included_mono; [exact Hgrow|].
    eapply (Hclosed j); [|set_solver|done..]. simpl in Hj. set_solver. }
  case_bool_decide as Hlen; inv_res.
  { split; [|simpl; set_solver].
    intros j sc s Hj HG Hsc Hs. destruct (decide (j = i)) as [->|Hne].
    - apply py_get_Ok in Hsc as [? _]. lia.
    - eapply (Hst1 j); [done|set_solver|done..]. }
  destruct (parent_scope_loop_closed (add_parent_scopes tc fuel) (G ∪ {[i]})
              ltac:(intros; split; [eapply add_parent_scopes_grows; eassumption
                                   | intros; eapply IH; eassumption])
              _ _ _ Hrun Hst1) as [Hst' Hall].
  assert (grows st1 st') as (_ & _ & _ & Hdone').
  { eapply (for_each_preserves _ grows); [|exact Hrun].
    intros. eapply parent_scope_step_grows; [|eassumption].
    intros. eapply add_parent_scopes_grows; eassumption. }
  split; [|apply Hdone'; simpl; set_solver].
  intros j sc s Hj HG Hsc Hs. destruct (decide (j = i)) as [->|Hne].
  - rewrite Hr in Hsc. inv_res. apply Hall. by apply elem_of_elements.
  - eapply (Hst' j); [done|set_solver|done..].
Qed.

(** With [last_line] off nothing but [i] itself is marked as processed. *)
Lemma add_parent_scopes_no_recursion fuel i st st' :
  last_line (config tc) = false →
  add_parent_scopes tc fuel i st = Ok st' →
  done_parent_scopes st' = {[ i ]} ∪ done_parent_scopes st.
Proof.
  intros Hoff. destruct fuel as [|fuel]; [done|]. simpl.
  case_bool_decide as Hdone; intros Hrun; inv_res; [set_solver|].
  case_bool_decide as Hlen; inv_res; [done|].
  set (st1 := set_done st ({[i]} ∪ done_parent_scopes st)) in *.
  change ({[i]} ∪ done_parent_scopes st) with (done_parent_scopes st1).
  assert (PreOrder (λ s s' : State, done_parent_scopes s' = done_parent_scopes s))
    as HR by (split; [by intros ? | intros a b c ??; congruence]).
  eapply (@for_each_preserves _ _ _ _ HR); [|exact Hrun].
  intros x s s' _ Hstep. unfold parent_scope_step in Hstep.
  apply bind_Ok in Hstep as ([hs he] & _ & Hstep). rewrite Hoff in Hstep.
  inv_res. by destruct (_ || _).
Qed.
End closure.

Section closure_of_expand.
Variable tc : TreeContext.

#[local] Instance advances_preorder : PreOrder (advances tc).
Proof.
  split.
  - intros s. split; [reflexivity | auto].
  - intros a b c [Hab Hab'] [Hbc Hbc']. split; [by transitivity b | auto].
Qed.

Lemma add_parent_scopes_advances fuel i st st' :
  add_parent_scopes tc fuel i st = Ok st' → advances tc st st'.
Proof.
  intros Hrun. split; [eapply add_parent_scopes_grows; eassumption|].
  intros Hclosed. by eapply add_parent_scopes_closed.
Qed.

Lemma add_parent_scopes_marks fuel i st st' :
  add_parent_scopes tc fuel i st = Ok st' → i ∈ done_parent_scopes st'.
Proof.
  intros Hrun.
  eapply (add_parent_scopes_closed tc fuel i st st' (done_parent_scopes st));
    [done|]. by intros j sc s Hj HG.
Qed.

Lemma set_show_advances st X : show_lines st ⊆ X → advances tc st (set_show st X).
Proof. split; [by apply grows_set_show | by apply closed_upto_set_show]. Qed.

Lemma show_children_advances sz cur cs st st' :
  show_children tc sz cur cs st = Ok st' → advances tc st st'.
Proof.
  revert st. induction cs as [|c cs IH]; intros st Hrun; simpl in Hrun.
  - inv_res. reflexivity.
  - destruct (over_budget _ _ _); inv_res; [reflexivity|].
    transitivity r; [eapply add_parent_scopes_advances; eassumption | by apply IH].
Qed.

Lemma add_child_context_advances i st st' :
  add_child_context tc i st = Ok st' → advances tc st st'.
Proof.
  unfold add_child_context. intros Hrun. inv_res.
  destruct r as [|n ns]; inv_res; [reflexivity|].
  case_bool_decide; inv_res.
  - apply set_show_advances. intros x. rewrite elem_of_update. auto.
  - eapply show_children_advances; eassumption.
Qed.

Lemma close_small_gaps_advances st st' :
  close_small_gaps tc st = Ok st' → advances tc st st'.
Proof.
  intros Hrun. pose proof (close_small_gaps_grows _ _ _ Hrun) as (_ & _ & Hshow & _).
  unfold close_small_gaps in Hrun. inv_res.
  by apply set_show_advances.
Qed.

Lemma expand_closed st0 st' :
  expand tc st0 = Ok st' →
  done_parent_scopes st0 = ∅ →
  closed_upto tc ∅ st' ∧
  (parent_context (config tc) = true →
   lines_of_interest st0 ⊆ done_parent_scopes st').
Proof.
  unfold expand. intros Hrun Hdone0.
  set (st1 := if bool_decide (loi_pad (config tc) = 0) then st0 else _) in Hrun.
  assert (advances tc st0 st1) as H01.
  { subst st1. destruct (bool_decide (loi_pad (config tc) = 0)); [reflexivity|].
    apply set_show_advances, pad_all_subseteq. }
  apply bind_Ok in Hrun as (st2 & H2 & Hrun).
  apply bind_Ok in Hrun as (st3 & H3 & Hrun).
  apply bind_Ok in Hrun as (st4 & H4 & Hrun).
  assert (advances tc st1 st2) as H12.
  { destruct (last_line (config tc)); inv_res; [|reflexivity].
    etransitivity; [|eapply add_parent_scopes_advances; eassumption].
    apply set_show_advances. set_solver. }
  assert (advances tc st2 st3) as H23.
  { destruct (parent_context (config tc)); inv_res; [|reflexivity].
    eapply (for_each_preserves _ (advances tc)); [|eassumption].
    intros. eapply add_parent_scopes_advances; eassumption. }
  assert (advances tc st3 st4) as H34.
  { destruct (child_context (config tc)); inv_res; [|reflexivity].
    eapply (for_each_preserves _ (advances tc)); [|eassumption].
    intros. eapply add_child_context_advances; eassumption. }
  assert (advances tc st4 st') as H45.
  { etransitivity; [|eapply close_small_gaps_advances; eassumption].
    destruct (bool_decide (margin (config tc) = 0)); [reflexivity|].
    apply set_show_advances. intros x. rewrite elem_of_update. auto. }
  split.
  - assert (advances tc st0 st') as [_ Hcl]
      by (repeat (etransitivity; [eassumption|]); reflexivity).
    apply Hcl. intros j sc s Hj. rewrite Hdone0 in Hj. set_solver.
  - intros Hparent i Hi. rewrite Hparent in H3.
    assert (i ∈ elements (lines_of_interest st0)) as Hi' by by apply elem_of_elements.
    destruct (for_each_member _ grows _ i
                (λ y s s' _ H, add_parent_scopes_grows tc _ y s s' H)
                Hi' _ _ H3) as (sa & sb & _ & Hi_run & Hb3).
    apply add_parent_scopes_marks in Hi_run.
    destruct Hb3 as (_ & _ & _ & Hb3). destruct H34 as [(_ & _ & _ & H34) _].
    destruct H45 as [(_ & _ & _ & H45) _]. auto.
Qed.
End closure_of_expand.

(** C6 as stated fails: with [last_line] off (and [parent_context] on) the
    line of interest 1 of [tail_tc] lies in the scope starting at line 0,
    whose closing line is 10; line 10 is not processed, and the header of the
    scope starting at line 5, which encloses line 10, is not shown. *)
Lemma parent_recursion_counterexample :
  ∃ st', parent_context (config tail_tc) = true ∧
         add_context tail_tc (interest {[ 1 ]}) = Ok st' ∧
         py_get (scopes tail_tc) 1 = Ok {[ 0 ]} ∧
         get_last_line_of_scope tail_tc 0 = Ok 10 ∧
         py_get (scopes tail_tc) 10 = Ok {[ 0; 5 ]} ∧
         (10 ∉ done_parent_scopes st') ∧
         (5 ∉ show_lines st').
Proof.
  eexists.
  split_and!; [vm_compute; reflexivity | vm_compute; reflexivity
              | vm_compute; reflexivity | vm_compute; reflexivity
              | vm_compute; reflexivity | compute_done | compute_done].
Qed.

(** C6, amended. After [add_context] returns with [parent_context] on, every
    line of interest is processed, and for every processed line [j] and every
    scope start [s] of [j] the header range of [s] is shown (unless it starts
    at line 0 and the top-of-file flag is off) and, when [last_line] is on,
    the closing line of [s] is processed too, so that the same holds for it,
    up to the root. When [last_line] is off there is no recursion: a call of
    [add_parent_scopes] marks its own line only. *)
Theorem processed_lines_closed (tc : TreeContext) (st st' : State) (i : Z) :
  parent_context (config tc) = true →
  add_context tc st = Ok st' →
  i ∈ lines_of_interest st →
  i ∈ done_parent_scopes st' ∧
  (∀ j sc s, j ∈ done_parent_scopes st' → py_get (scopes tc) j = Ok sc → s ∈ sc →
             scope_included tc st' s) ∧
  (last_line (config tc) = false →
   ∀ fuel j s0 s1, add_parent_scopes tc fuel j s0 = Ok s1 →
                   done_parent_scopes s1 = {[ j ]} ∪ done_parent_scopes s0).
Proof.
  intros Hparent Hrun Hi. unfold add_context in Hrun.
  case_bool_decide as Hloi.
  { rewrite Hloi in Hi. by apply not_elem_of_empty in Hi. }
  apply expand_closed in Hrun as [Hclosed Hdone]; [|done].
  split_and!.
  - by apply (Hdone Hparent).
  - intros j sc s Hj Hsc Hs. eapply (Hclosed j); [done|set_solver|done..].
  - intros Hoff fuel j s0 s1. by apply add_parent_scopes_no_recursion.
Qed.

Lemma processed_lines_closed_witness :
  ∃ st', add_context block_tc (interest {[ 6 ]}) = Ok st' ∧
         (6 ∈ done_parent_scopes st' ∧
          (∀ j sc s, j ∈ done_parent_scopes st' → py_get (scopes block_tc) j = Ok sc →
                     s ∈ sc → scope_included block_tc st' s) ∧
          (last_line (config block_tc) = false →
           ∀ fuel j s0 s1, add_parent_scopes block_tc fuel j s0 = Ok s1 →
                           done_parent_scopes s1 = {[ j ]} ∪ done_parent_scopes s0)).
Proof.
  eexists. split; [vm_compute; reflexivity|].
  apply (processed_lines_closed block_tc (interest {[ 6 ]}));
    [vm_compute; reflexivity | vm_compute; reflexivity | compute_done].
Defined.

(** ** Gap closing *)

Lemma fill_gaps_cons (a b : Z) (l : list Z) (X : gset Z) :
  fill_gaps (a :: b :: l) X =
  fill_gaps (b :: l) (if bool_decide (b - a = 2) then {[ a + 1 ]} ∪ X else X).
Proof. reflexivity. Qed.

Lemma fill_gaps_fills (l : list Z) (X : gset Z) (a b : Z) :
  consecutive l a b → b - a = 2 → a + 1 ∈ fill_gaps l X.
Proof.
  intros (l1 & l2 & ->) Hgap. revert X.
  induction l1 as [|x l1 IH]; intros X.
  - cbn [app]. rewrite fill_gaps_cons. apply fill_gaps_subseteq.
    rewrite bool_decide_eq_true_2 by done. set_solver.
  - destruct l1 as [|y l1]; cbn [app] in *; rewrite fill_gaps_cons; apply IH.
Qed.

Lemma sorted_neighbours (l : list Z) (a b : Z) :
  StronglySorted Z.le l → NoDup l →
  a ∈ l → b ∈ l → a < b → (∀ c, c ∈ l → ¬ (a < c < b)) →
  consecutive l a b.
Proof.
  induction l as [|x l IH]; intros Hsorted Hnodup Ha Hb Hlt Hnone.
  { by apply elem_of_nil in Ha. }
  apply StronglySorted_inv in Hsorted as [Hsorted Hall].
  rewrite Forall_forall in Hall.
  apply NoDup_cons in Hnodup as [Hx Hnodup].
  apply elem_of_cons in Ha as [->|Ha].
  - apply elem_of_cons in Hb as [->|Hb]; [lia|].
    destruct l as [|y l]; [by apply elem_of_nil in Hb|].
    assert (y = b) as ->; [|by exists [], l].
    assert (x ≤ y) by (apply Hall; left).
    assert (y ≠ x) by (intros ->; apply Hx; left).
    assert (y ≤ b).
    { apply elem_of_cons in Hb as [->|Hb]; [lia|].
      apply StronglySorted_inv in Hsorted as [_ Hy].
      rewrite Forall_forall in Hy. by apply Hy. }
    destruct (decide (y = b)) as [|Hne]; [done|].
    exfalso. apply (Hnone y); [right; left | lia].
  - apply elem_of_cons in Hb as [->|Hb].
    { specialize (Hall _ Ha). lia. }
    destruct IH as (l1 & l2 & ->); try done.
    { intros c Hc. apply Hnone. by right. }
    by exists (x :: l1), l2.
Qed.

Lemma sorted_spec (X : gset Z) :
  StronglySorted Z.le (sorted X) ∧ NoDup (sorted X) ∧ ∀ x, x ∈ sorted X ↔ x ∈ X.
Proof.
  unfold sorted. split_and!.
  - apply StronglySorted_merge_sort; apply _.
  - rewrite merge_sort_Permutation. apply NoDup_elements.
  - intros x. rewrite merge_sort_Permutation. apply elem_of_elements.
Qed.

(** C5 as stated fails: under the default configuration, with line 5 of
    [gap_tc] of interest, lines 7 and 9 are neighbours in the sorted show set
    after [add_context], and line 8 is hidden. Line 7 is the empty line that
    the second loop of [close_small_gaps] attaches to line 6, after the first
    loop has filled the gaps. *)
Lemma one_line_gap_counterexample :
  ∃ st', add_context gap_tc (interest {[ 5 ]}) = Ok st' ∧
         sorted (show_lines st') = [0; 1; 2; 3; 4; 5; 6; 7; 9] ∧
         consecutive (sorted (show_lines st')) 7 9 ∧
         9 - 7 = 2.
Proof.
  eexists. split_and!; [vm_compute; reflexivity | vm_compute; reflexivity | | done].
  exists [0; 1; 2; 3; 4; 5; 6], []. vm_compute. reflexivity.
Qed.

(** C5, amended. Gap closing fills every one-line gap of the show set as it
    stands when gap closing starts: if [a] and [b] are neighbours in that
    sorted set and [b - a = 2], the line between them is shown afterwards; so
    whenever [a] and [a + 2] were both shown before gap closing, [a + 1] is
    shown after it. (Lines added by the blank-line loop may leave new one-line
    gaps.) *)
Theorem one_line_gaps_filled (tc : TreeContext) (st st' : State) :
  close_small_gaps tc st = Ok st' →
  (∀ a b, consecutive (sorted (show_lines st)) a b → b - a = 2 →
          a + 1 ∈ show_lines st') ∧
  (∀ a, a ∈ show_lines st → a + 2 ∈ show_lines st → a + 1 ∈ show_lines st').
Proof.
  intros Hrun.
  assert (fill_gaps (sorted (show_lines st)) (show_lines st) ⊆ show_lines st')
    as Hfilled.
  { unfold close_small_gaps in Hrun. inv_res. simpl.
    eapply (for_each_preserves _ (⊆)); [|eassumption].
    intros. by eapply attach_blank_subseteq. }
  assert (∀ a b, consecutive (sorted (show_lines st)) a b → b - a = 2 →
                 a + 1 ∈ show_lines st') as Hfirst.
  { intros a b Hab Hgap. apply Hfilled. by eapply fill_gaps_fills. }
  split; [done|].
  intros a Ha Hb.
  destruct (decide (a + 1 ∈ show_lines st)) as [Hmid|Hmid].
  { apply Hfilled. by apply fill_gaps_subseteq. }
  destruct (sorted_spec (show_lines st)) as (Hsorted & Hnodup & Hmem).
  apply (Hfirst a (a + 2)); [|lia].
  apply sorted_neighbours; [done | done | by apply Hmem | by apply Hmem | lia |].
  intros c Hc Hbetween. apply Hmid.
  assert (c = a + 1) as <- by lia. by apply Hmem.
Qed.

Lemma one_line_gaps_filled_witness :
  ∃ st', close_small_gaps gap_tc (set_show init_state {[ 2; 4 ]}) = Ok st' ∧
         ((∀ a b, consecutive (sorted (show_lines (set_show init_state {[ 2; 4 ]}))) a b →
                  b - a = 2 → a + 1 ∈ show_lines st') ∧
          (∀ a, a ∈ show_lines (set_show init_state {[ 2; 4 ]}) →
                a + 2 ∈ show_lines (set_show init_state {[ 2; 4 ]}) →
                a + 1 ∈ show_lines st')).
Proof.
  eexists. split; [vm_compute; reflexivity|].
  apply (one_line_gaps_filled gap_tc (set_show init_state {[ 2; 4 ]})).
  vm_compute. reflexivity.
Defined.

(** ** Rendering *)

Section format_facts.
Variable tc : TreeContext.
Variables st1 st2 : State.
Hypothesis same_interest : lines_of_interest st1 = lines_of_interest st2.
Hypothesis same_output : output_lines st1 = output_lines st2.

Lemma format_line_ext acc i line :
  (i ∈ show_lines st1 ↔ i ∈ show_lines st2) →
  format_line tc st1 acc (i, line) = format_line tc st2 acc (i, line).
Proof.
  intros Hshow. unfold format_line. destruct acc as [output dots].
  rewrite (bool_decide_ext (i ∉ show_lines st1) (i ∉ show_lines st2))
    by (by rewrite Hshow).
  by rewrite same_interest, same_output.
Qed.

Lemma format_loop_ext (l : list string) (k : nat) acc :
  (∀ i, (k ≤ i < k + length l)%nat →
        Z.of_nat i ∈ show_lines st1 ↔ Z.of_nat i ∈ show_lines st2) →
  foldl (format_line tc st1) acc (imap (λ i x, (Z.of_nat (k + i), x)) l) =
  foldl (format_line tc st2) acc (imap (λ i x, (Z.of_nat (k + i), x)) l).
Proof.
  revert k acc. induction l as [|x l IH]; intros k acc Hshow; [done|].
  rewrite imap_cons. simpl.
  rewrite (imap_ext _ (λ i x, (Z.of_nat (S k + i), x)))
    by (intros; simpl; do 2 f_equal; lia).
  rewrite Nat.add_0_r, format_line_ext by (apply Hshow; simpl; lia).
  apply IH. intros i Hi. apply Hshow. simpl. lia.
Qed.
End format_facts.

(** C10 as stated fails: before and after [add_context] the show set of
    [virtual_tc] with the virtual line 1 of interest has the same members
    among the real lines (none), and [format] returns the empty string
    before and the elision marker after. *)
Lemma format_counterexample :
  ∃ st', add_context virtual_tc (interest {[ 1 ]}) = Ok st' ∧
         lines_of_interest st' = lines_of_interest (interest {[ 1 ]}) ∧
         output_lines st' = output_lines (interest {[ 1 ]}) ∧
         (∀ i, 0 ≤ i < Z.of_nat (length (lines virtual_tc)) →
               i ∈ show_lines st' ↔ i ∈ show_lines (interest {[ 1 ]})) ∧
         format virtual_tc (interest {[ 1 ]}) = EmptyString ∧
         format virtual_tc st' = vdots +:+ nl.
Proof.
  eexists.
  split_and!; [vm_compute; reflexivity | vm_compute; reflexivity
              | vm_compute; reflexivity | | vm_compute; reflexivity
              | vm_compute; reflexivity].
  intros i Hi. change (Z.of_nat (length (lines virtual_tc))) with 1 in Hi.
  assert (i = 0) as -> by lia.
  split; intros Hin; exfalso; revert Hin; compute_done.
Qed.

(** C10, amended. The output of [format] is determined by the members of the
    show set among the real lines [[0, len(lines))] together with whether
    the show set is empty: two states with the same interest set and
    highlights whose show sets are both empty or both non-empty and agree on
    the real lines render the same text. A member at or beyond the line count
    is never emitted, and no subscript is evaluated: [format] cannot raise. *)
Theorem format_determined (tc : TreeContext) (st1 st2 : State) :
  lines_of_interest st1 = lines_of_interest st2 →
  output_lines st1 = output_lines st2 →
  (show_lines st1 = ∅ ↔ show_lines st2 = ∅) →
  (∀ i, 0 ≤ i < Z.of_nat (length (lines tc)) →
        i ∈ show_lines st1 ↔ i ∈ show_lines st2) →
  format tc st1 = format tc st2.
Proof.
  intros Hloi Hout Hempty Hshow. unfold format.
  rewrite (bool_decide_ext _ _ Hempty). case_bool_decide; [done|].
  unfold enumerate. destruct (lines tc) as [|x l] eqn:Hlines; [done|].
  rewrite (bool_decide_ext (0 ∈ show_lines st1) (0 ∈ show_lines st2))
    by (apply Hshow; simpl; lia).
  f_equal.
  apply (format_loop_ext tc st1 st2 Hloi Hout (x :: l) 0).
  intros i Hi. apply Hshow. lia.
Qed.

Lemma format_determined_witness :
  format virtual_tc (set_show (interest {[ 0 ]}) {[ 0 ]}) =
  format virtual_tc (set_show (interest {[ 0 ]}) {[ 0; 1; 7 ]}).
Proof.
  apply format_determined; [reflexivity | reflexivity | |].
  - split; intros H; exfalso; revert H; compute_done.
  - intros i Hi. change (Z.of_nat (length (lines virtual_tc))) with 1 in Hi.
    assert (i = 0) as -> by lia. split; intros _; compute_done.
Defined.

(** ** Indexing: what [walk_tree] records *)

Lemma Node_ind_list (P : Node → Prop) :
  (∀ s e cs, Forall P cs → P (mkNode s e cs)) → ∀ n, P n.
Proof.
  intros Hnode. fix IH 1. intros [s e cs]. apply Hnode.
  induction cs as [|c cs IHcs]; constructor; [apply IH | apply IHcs].
Qed.

Lemma py_modify_nonneg {A} (l l' : list A) (i : Z) (f : A → A) :
  py_modify l i f = Ok l' → 0 ≤ i →
  i < Z.of_nat (length l) ∧
  ∀ k : nat, l' !! k = (λ x, if decide (Z.of_nat k = i) then f x else x) <$> l !! k.
Proof.
  unfold py_modify. intros Hrun Hi. inv_res.
  destruct (l !! r) as [x|] eqn:Hx; inv_res.
  apply py_index_Ok in Hr as (Hlen & Hrange & [Hk|Hk]); [|lia].
  split; [lia|]. intros k. destruct (decide (k = r)) as [->|Hne].
  - rewrite list_lookup_insert_eq by done. rewrite Hx. simpl.
    by rewrite decide_True.
  - rewrite list_lookup_insert_ne by done.
    destruct (l !! k); simpl; [|done]. rewrite decide_False; [done|lia].
Qed.

Lemma add_scopes_spec (s : Z) (l : list Z) (sc sc' : list (gset Z)) :
  for_each (add_scope s) l sc = Ok sc' →
  (∀ x, x ∈ l → 0 ≤ x) →
  ∀ k : nat,
    sc' !! k = (λ X, if decide (Z.of_nat k ∈ l) then X ∪ {[ s ]} else X) <$> sc !! k.
Proof.
  revert sc. induction l as [|x l IH]; intros sc Hrun Hpos k; simpl in Hrun.
  - inv_res. by destruct (_ !! k).
  - apply bind_Ok in Hrun as (sc1 & Hstep & Hrun).
    apply py_modify_nonneg in Hstep as [_ Hstep]; [|apply Hpos; left].
    rewrite (IH _ Hrun) by (intros; apply Hpos; by right).
    rewrite Hstep. destruct (sc !! k) as [X|]; simpl; [|done]. f_equal.
    repeat case_decide; set_solver.
Qed.

Lemma tables_extend_nil t : tables_extend t t [].
Proof.
  intros k. unfold nodes_at, candidates_at, scopes_at. simpl.
  split_and!.
  - destruct (t_nodes t !! k) as [l|]; simpl; [|done]. by rewrite app_nil_r.
  - destruct (t_header t !! k) as [l|]; simpl; [|done]. by rewrite app_nil_r.
  - destruct (t_scopes t !! k) as [X|]; simpl; [|done]. f_equal. set_solver.
Qed.

Lemma tables_extend_app t1 t2 t3 ns ms :
  tables_extend t1 t2 ns → tables_extend t2 t3 ms → tables_extend t1 t3 (ns ++ ms).
Proof.
  intros H12 H23 k. destruct (H12 k) as (Hn & Hh & Hs), (H23 k) as (Hn' & Hh' & Hs').
  rewrite Hn', Hh', Hs', Hn, Hh, Hs.
  unfold nodes_at, candidates_at, scopes_at.
  rewrite !filter_app, !fmap_app, list_to_set_app_L. clear.
  split_and!.
  - destruct (t_nodes t1 !! k) as [l|]; simpl; [|done]. by rewrite app_assoc.
  - destruct (t_header t1 !! k) as [l|]; simpl; [|done]. by rewrite app_assoc.
  - destruct (t_scopes t1 !! k) as [X|]; simpl; [|done]. f_equal. set_solver.
Qed.

(** One node: the three updates at the head of [walk_tree]. *)
Lemma walk_node_spec node t nodes' header' scopes' :
  0 ≤ start_line node →
  py_modify (t_nodes t) (start_line node) (λ l, l ++ [node]) = Ok nodes' →
  (if bool_decide (end_line node - start_line node = 0) then Ok (t_header t)
   else py_modify (t_header t) (start_line node)
          (λ l, l ++ [(end_line node - start_line node, start_line node, end_line node)]))
    = Ok header' →
  for_each (add_scope (start_line node))
    (range (start_line node) (end_line node + 1)) (t_scopes t) = Ok scopes' →
  tables_extend t {| t_scopes := scopes'; t_header := header'; t_nodes := nodes' |}
    [node].
Proof.
  intros Hpos Hnodes Hheader Hscopes k. simpl.
  apply py_modify_nonneg in Hnodes as [_ Hnodes]; [|done].
  unfold nodes_at, candidates_at, scopes_at.
  rewrite !filter_cons, !filter_nil.
  split_and!.
  - rewrite Hnodes. destruct (t_nodes t !! k) as [l|]; simpl; [|done]. f_equal.
    destruct (decide (Z.of_nat k = start_line node)) as [Heq|Hne].
    + by rewrite decide_True.
    + rewrite decide_False by done. by rewrite app_nil_r.
  - destruct (bool_decide (end_line node - start_line node = 0)) eqn:Hsize.
    + apply bool_decide_eq_true_1 in Hsize. inv_res.
      rewrite decide_False by (by intros [_ ?]). simpl.
      destruct (t_header t !! k) as [l|]; simpl; [|done]. by rewrite app_nil_r.
    + apply bool_decide_eq_false_1 in Hsize.
      apply py_modify_nonneg in Hheader as [_ Hheader]; [|done].
      rewrite Hheader. destruct (t_header t !! k) as [l|]; simpl; [|done]. f_equal.
      destruct (decide (Z.of_nat k = start_line node)) as [Heq|Hne].
      * by rewrite decide_True.
      * rewrite decide_False by (by intros [? _]). simpl. by rewrite app_nil_r.
  - rewrite (add_scopes_spec _ _ _ _ Hscopes)
      by (intros x Hx%elem_of_range; lia).
    destruct (t_scopes t !! k) as [X|]; simpl; [|done]. f_equal.
    destruct (decide (Z.of_nat k ∈ range (start_line node) (end_line node + 1)))
      as [Hin|Hin]; rewrite elem_of_range in Hin.
    + rewrite decide_True by lia. set_solver.
    + rewrite decide_False by lia. set_solver.
Qed.

Lemma walk_tree_spec node :
  ∀ t t', walk_tree node t = Ok t' →
          (∀ n, n ∈ find_all_children node → 0 ≤ start_line n) →
          tables_extend t t' (find_all_children node).
Proof.
  induction node as [s e cs IH] using Node_ind_list. intros t t' Hrun Hpos.
  simpl in Hrun.
  apply bind_Ok in Hrun as (nodes' & Hnodes & Hrun).
  apply bind_Ok in Hrun as (header' & Hheader & Hrun).
  apply bind_Ok in Hrun as (scopes' & Hscopes & Hrun).
  change (find_all_children (mkNode s e cs))
    with ([mkNode s e cs] ++ concat (map find_all_children cs)).
  eapply tables_extend_app.
  { apply (walk_node_spec (mkNode s e cs)); [|done..]. apply Hpos. left. }
  assert (∀ n, n ∈ concat (map find_all_children cs) → 0 ≤ start_line n) as Hpos'.
  { intros n Hn. apply Hpos. by right. }
  clear Hpos Hnodes Hheader Hscopes.
  generalize dependent {| t_scopes := scopes'; t_header := header'; t_nodes := nodes' |}.
  induction cs as [|c cs IHcs]; intros t1 Hrun.
  { simpl in Hrun. inv_res. apply tables_extend_nil. }
  simpl in Hrun. apply bind_Ok in Hrun as (t2 & Hc & Hrun).
  apply Forall_cons in IH as [IHc IH].
  simpl. eapply tables_extend_app.
  - apply IHc; [done|]. intros n Hn. apply Hpos'. simpl.
    apply elem_of_app. by left.
  - apply IHcs; [done| |done]. intros n Hn. apply Hpos'. simpl.
    apply elem_of_app. by right.
Qed.

(** ** Construction: headers and containment *)

Lemma py_get_nonneg {A} (l : list A) (i : Z) (x : A) :
  0 ≤ i → py_get l i = Ok x ↔ l !! Z.to_nat i = Some x.
Proof.
  intros Hi. unfold py_get, py_index. split.
  - repeat case_bool_decide; simpl; try done; try lia.
    by destruct (l !! Z.to_nat i); intros; inv_res.
  - intros Hl. apply lookup_lt_Some in Hl as Hlt.
    rewrite bool_decide_eq_true_2 by lia. simpl. by rewrite Hl.
Qed.

Lemma init_tables cfg lines root tc :
  init cfg lines root = Ok tc → rows_nonneg root →
  ∀ k : nat, (k ≤ length lines)%nat →
    nodes tc !! k = Some (nodes_at (find_all_children root) (Z.of_nat k)) ∧
    scopes tc !! k = Some (scopes_at (find_all_children root) (Z.of_nat k)) ∧
    header tc !! k =
      Some (finalize_header cfg (Z.of_nat k)
              (candidates_at (find_all_children root) (Z.of_nat k))).
Proof.
  unfold init. intros Hinit Hrows k Hk. inv_res. simpl.
  apply walk_tree_spec in Hr; [|by apply Forall_forall].
  destruct (Hr k) as (Hn & Hh & Hs). unfold empty_tables in *. simpl in *.
  rewrite lookup_replicate_2 in Hn by lia.
  rewrite lookup_replicate_2 in Hh by lia.
  rewrite lookup_replicate_2 in Hs by lia. simpl in *.
  split_and!; [done | by rewrite Hs, union_empty_l_L |].
  by rewrite list_lookup_imap, Hh.
Qed.

#[global] Instance candidate_le_total : Total candidate_le.
Proof. intros [[??]?] [[??]?]. unfold candidate_le. lia. Qed.

#[global] Instance candidate_le_trans : Transitive candidate_le.
Proof. intros [[??]?] [[??]?] [[??]?]. unfold candidate_le. lia. Qed.

Lemma finalize_header_few cfg i cands :
  (length cands < 2)%nat → finalize_header cfg i cands = (i, i + 1).
Proof.
  intros Hlen. unfold finalize_header.
  pose proof (Permutation_length (merge_sort_Permutation candidate_le cands)) as Hperm.
  destruct (merge_sort candidate_le cands) as [|[[??]?] [|??]]; simpl in *; [done..|lia].
Qed.

Lemma finalize_header_least cfg i cands :
  (2 ≤ length cands)%nat →
  ∃ size head_start head_end,
    (size, head_start, head_end) ∈ cands ∧
    (∀ c, c ∈ cands → candidate_le (size, head_start, head_end) c) ∧
    finalize_header cfg i cands =
      (head_start,
       if bool_decide (header_max cfg < size) then head_start + header_max cfg
       else head_end).
Proof.
  intros Hlen. unfold finalize_header.
  pose proof (merge_sort_Permutation candidate_le cands) as Hperm.
  pose proof (StronglySorted_merge_sort candidate_le cands) as Hsorted.
  pose proof (Permutation_length Hperm) as Hlen'.
  destruct (merge_sort candidate_le cands) as [|[[size hs] he] [|c l]];
    simpl in Hlen'; [lia..|].
  exists size, hs, he. split_and!; [|  |done].
  - rewrite <- Hperm. left.
  - intros c' Hc'. rewrite <- Hperm in Hc'.
    apply StronglySorted_inv in Hsorted as [_ Hall].
    rewrite Forall_forall in Hall.
    apply elem_of_cons in Hc' as [->|Hc']; [|by apply Hall].
    unfold candidate_le. lia.
Qed.

Lemma elem_of_candidates_at ns k c :
  c ∈ candidates_at ns k ↔
  ∃ n, n ∈ ns ∧ start_line n = k ∧ end_line n ≠ k ∧
       c = (end_line n - k, k, end_line n).
Proof.
  unfold candidates_at, candidate_of. rewrite list_elem_of_fmap. split.
  - intros (n & -> & ((Hs & Hsize) & Hn)%list_elem_of_filter).
    exists n. subst k. split_and!; [done | done | lia | done].
  - intros (n & Hn & <- & Hne & ->). exists n. split; [done|].
    apply list_elem_of_filter. split; [|done]. split; [done | lia].
Qed.

(** C1 as stated fails. Line 0 of [nested_tc] has the candidates of sizes 10
    and 3, in this order, and its header comes from the smaller one; line 5
    of [block_tc] has one candidate, of size 2, and its header is the line
    alone. *)
Lemma header_counterexample :
  (∃ t, walk_tree nested_root (empty_tables 11) = Ok t ∧
        t_header t !! 0%nat = Some [(10, 0, 10); (3, 0, 3)]) ∧
  py_get (header nested_tc) 0 = Ok (0, 3) ∧
  spec_header default_config 0 [(10, 0, 10); (3, 0, 3)] = (0, 10) ∧
  py_get (header nested_tc) 0
    ≠ Ok (spec_header default_config 0 [(10, 0, 10); (3, 0, 3)]) ∧
  (∃ t, walk_tree block_root (empty_tables 11) = Ok t ∧
        t_header t !! 5%nat = Some [(2, 5, 7)]) ∧
  py_get (header block_tc) 5 = Ok (5, 6) ∧
  spec_header default_config 5 [(2, 5, 7)] = (5, 7) ∧
  py_get (header block_tc) 5 ≠ Ok (spec_header default_config 5 [(2, 5, 7)]).
Proof.
  split_and!; try (vm_compute; reflexivity); try (vm_compute; discriminate);
    eexists; (split; [vm_compute; reflexivity | vm_compute; reflexivity]).
Qed.

(** C1, amended. After construction, for every line [i]: if fewer than two
    multi-line constructs start on [i] (none or one header candidate), the
    header of [i] is [[i, i+1)]; if at least two do, the header comes from
    the candidate that sorts first, the construct of the smallest size
    starting on [i]: it runs from [i] up to, not including, the end row of
    that construct, or up to [i + header_max] when the size exceeds
    [header_max]. *)
Theorem header_finalized (cfg : Config) (lines : list string) (root : Node)
    (tc : TreeContext) (i : Z) :
  init cfg lines root = Ok tc →
  rows_nonneg root →
  0 ≤ i ≤ Z.of_nat (length lines) →
  ((length (candidates_at (find_all_children root) i) < 2)%nat →
   py_get (header tc) i = Ok (i, i + 1)) ∧
  ((2 ≤ length (candidates_at (find_all_children root) i))%nat →
   ∃ n, n ∈ find_all_children root ∧ start_line n = i ∧ end_line n ≠ i ∧
        (∀ m, m ∈ find_all_children root → start_line m = i → end_line m ≠ i →
              end_line n ≤ end_line m) ∧
        py_get (header tc) i =
          Ok (i, if bool_decide (header_max cfg < end_line n - i)
                 then i + header_max cfg else end_line n)).
Proof.
  intros Hinit Hrows Hi.
  destruct (init_tables _ _ _ _ Hinit Hrows (Z.to_nat i) ltac:(lia))
    as (_ & _ & Hheader).
  rewrite Z2Nat.id in Hheader by lia.
  split; intros Hlen.
  - rewrite py_get_nonneg by lia. by rewrite Hheader, finalize_header_few.
  - destruct (finalize_header_least cfg i _ Hlen)
      as (size & hs & he & Hin & Hleast & Heq).
    apply elem_of_candidates_at in Hin as (n & Hn & Hstart & Hne & Hc).
    injection Hc as -> -> ->.
    exists n. split_and!; [done..| |rewrite py_get_nonneg by lia; by rewrite Hheader, Heq].
    intros m Hm Hmstart Hmne.
    assert ((end_line m - i, i, end_line m) ∈ candidates_at (find_all_children root) i)
      as Hmc by (apply elem_of_candidates_at; eauto).
    apply Hleast in Hmc. unfold candidate_le in Hmc. lia.
Qed.

Lemma header_finalized_witness :
  ((length (candidates_at (find_all_children nested_root) 0) < 2)%nat →
   py_get (header nested_tc) 0 = Ok (0, 0 + 1)) ∧
  ((2 ≤ length (candidates_at (find_all_children nested_root) 0))%nat →
   ∃ n, n ∈ find_all_children nested_root ∧ start_line n = 0 ∧ end_line n ≠ 0 ∧
        (∀ m, m ∈ find_all_children nested_root → start_line m = 0 →
              end_line m ≠ 0 → end_line n ≤ end_line m) ∧
        py_get (header nested_tc) 0 =
          Ok (0, if bool_decide (header_max default_config < end_line n - 0)
                 then 0 + header_max default_config else end_line n)).
Proof.
  apply (header_finalized default_config ten_lines nested_root nested_tc 0);
    [vm_compute; reflexivity | compute_done | vm_compute; split; discriminate].
Defined.

(** C9. After construction, for every line [i] of [[0, N]] and every scope
    start [s] recorded for [i], the scope of [s] has a last line, and
    [s ≤ i ≤ ] that last line, the largest end row of the nodes starting
    at [s]. *)
Theorem scope_containment (cfg : Config) (lines : list string) (root : Node)
    (tc : TreeContext) (i s : Z) (sc : gset Z) :
  init cfg lines root = Ok tc →
  rows_nonneg root →
  0 ≤ i ≤ Z.of_nat (length lines) →
  py_get (scopes tc) i = Ok sc →
  s ∈ sc →
  ∃ last, get_last_line_of_scope tc s = Ok last ∧ s ≤ i ≤ last.
Proof.
  intros Hinit Hrows Hi Hsc Hs.
  destruct (init_tables _ _ _ _ Hinit Hrows (Z.to_nat i) ltac:(lia))
    as (_ & Hscopes & _).
  rewrite Z2Nat.id in Hscopes by lia.
  apply py_get_nonneg in Hsc; [|lia]. rewrite Hscopes in Hsc.
  injection Hsc as <-. unfold scopes_at in Hs.
  apply elem_of_list_to_set, list_elem_of_fmap in Hs
    as (n & -> & (Hrange & Hn)%list_elem_of_filter).
  assert (0 ≤ start_line n) as Hpos.
  { unfold rows_nonneg in Hrows. rewrite Forall_forall in Hrows. by apply Hrows. }
  destruct (init_tables _ _ _ _ Hinit Hrows (Z.to_nat (start_line n)) ltac:(lia))
    as (Hnodes & _ & _).
  rewrite Z2Nat.id in Hnodes by lia.
  apply py_get_nonneg in Hnodes; [|lia].
  assert (n ∈ nodes_at (find_all_children root) (start_line n)) as Hmem
    by (by apply list_elem_of_filter).
  unfold get_last_line_of_scope. rewrite Hnodes. simpl.
  destruct (nodes_at _ _) as [|n0 ns] eqn:Hat; [by apply elem_of_nil in Hmem|].
  eexists. split; [reflexivity|].
  destruct (foldl_max_ge ns (end_line n0)) as [H0 Hrest].
  apply elem_of_cons in Hmem as [->|Hmem]; [lia|].
  specialize (Hrest _ Hmem). lia.
Qed.

Lemma scope_containment_witness :
  ∃ last, get_last_line_of_scope block_tc 5 = Ok last ∧ 5 ≤ 6 ≤ last.
Proof.
  apply (scope_containment default_config ten_lines block_root block_tc 6 5 {[ 0; 5 ]});
    [vm_compute; reflexivity | compute_done | vm_compute; split; discriminate
    | vm_compute; reflexivity | compute_done].
Defined.

(** * Further properties of the code *)

(** ** Construction succeeds exactly on trees within the tables *)

Lemma bind_kind {A B} (m : res A) (f : A → res B) :
  ok_or_index_error m → (∀ a, ok_or_index_error (f a)) →
  ok_or_index_error (m ≫= f).
Proof. intros [[a ->]| ->] Hf; simpl; [apply Hf | by right]. Qed.

Lemma for_each_kind {A S} (body : A → S → res S) (l : list A) :
  (∀ x s, x ∈ l → ok_or_index_error (body x s)) →
  ∀ s, ok_or_index_error (for_each body l s).
Proof.
  induction l as [|x l IH]; intros Hbody s; simpl; [left; eauto|].
  apply bind_kind; [apply Hbody; left|].
  intros s'. apply IH. intros. apply Hbody. by right.
Qed.

Lemma py_modify_kind {A} (l : list A) (i : Z) (f : A → A) :
  ok_or_index_error (py_modify l i f).
Proof.
  unfold py_modify, py_index.
  repeat case_bool_decide; simpl; try (by right);
    destruct (l !! _); (by right) || (left; eauto).
Qed.

Lemma py_modify_length {A} (l l' : list A) (i : Z) (f : A → A) :
  py_modify l i f = Ok l' → length l' = length l.
Proof.
  unfold py_modify. intros Hrun. inv_res.
  destruct (l !! r); inv_res. apply length_insert.
Qed.

Lemma py_modify_within {A} (l : list A) (i : Z) (f : A → A) :
  0 ≤ i < Z.of_nat (length l) → ∃ l', py_modify l i f = Ok l'.
Proof.
  intros Hi. unfold py_modify, py_index.
  rewrite bool_decide_eq_true_2 by done. simpl.
  destruct (lookup_lt_is_Some_2 l (Z.to_nat i)) as [x ->]; [lia|]. eauto.
Qed.

Lemma add_scopes_length (s : Z) (l : list Z) (sc sc' : list (gset Z)) :
  for_each (add_scope s) l sc = Ok sc' → length sc' = length sc.
Proof.
  revert sc. induction l as [|x l IH]; intros sc Hrun; simpl in Hrun.
  - by inv_res.
  - apply bind_Ok in Hrun as (sc1 & Hstep & Hrun).
    apply py_modify_length in Hstep. rewrite (IH _ Hrun). done.
Qed.

Lemma add_scopes_bound (s : Z) (l : list Z) (sc sc' : list (gset Z)) :
  for_each (add_scope s) l sc = Ok sc' → (∀ x, x ∈ l → 0 ≤ x) →
  ∀ x, x ∈ l → x < Z.of_nat (length sc).
Proof.
  revert sc. induction l as [|y l IH]; intros sc Hrun Hpos x Hx; simpl in Hrun.
  { by apply elem_of_nil in Hx. }
  apply bind_Ok in Hrun as (sc1 & Hstep & Hrun).
  pose proof (py_modify_length _ _ _ _ Hstep) as Hlen.
  apply py_modify_nonneg in Hstep as [Hy _]; [|apply Hpos; left].
  apply elem_of_cons in Hx as [->|Hx]; [done|].
  rewrite <- Hlen. eapply IH; [done| |done]. intros. apply Hpos. by right.
Qed.

Lemma add_scopes_within (s : Z) (l : list Z) (sc : list (gset Z)) :
  (∀ x, x ∈ l → 0 ≤ x < Z.of_nat (length sc)) →
  ∃ sc', for_each (add_scope s) l sc = Ok sc'.
Proof.
  revert sc. induction l as [|y l IH]; intros sc Hin; [simpl; eauto|].
  assert (∃ sc1, add_scope s y sc = Ok sc1) as [sc1 Hstep]
    by (apply py_modify_within, Hin; left).
  cbn [for_each]. rewrite Hstep. simpl. apply IH.
  intros x Hx. rewrite (py_modify_length _ _ _ _ Hstep). apply Hin. by right.
Qed.

Lemma walk_tree_kind node : ∀ t, ok_or_index_error (walk_tree node t).
Proof.
  induction node as [s e cs IH] using Node_ind_list. intros t. simpl.
  apply bind_kind; [apply py_modify_kind|]. intros nodes'.
  apply bind_kind.
  { case_bool_decide; [left; eauto | apply py_modify_kind]. }
  intros header'. apply bind_kind.
  { apply for_each_kind. intros. apply py_modify_kind. }
  intros scopes'. apply for_each_kind. intros c t' Hc.
  rewrite Forall_forall in IH. by apply IH.
Qed.

Lemma walk_tree_bound node (N : nat) :
  ∀ t t', walk_tree node t = Ok t' →
          Forall (λ n, 0 ≤ start_line n) (find_all_children node) →
          tables_len t N →
          tables_len t' N ∧
          Forall (λ n, start_line n < Z.of_nat N ∧ end_line n < Z.of_nat N)
                 (find_all_children node).
Proof.
  induction node as [s e cs IH] using Node_ind_list.
  intros t t' Hrun Hpos (Hls & Hlh & Hln). simpl in Hrun.
  apply bind_Ok in Hrun as (nodes' & Hnodes & Hrun).
  apply bind_Ok in Hrun as (header' & Hheader & Hrun).
  apply bind_Ok in Hrun as (scopes' & Hscopes & Hrun).
  change (find_all_children (mkNode s e cs))
    with (mkNode s e cs :: concat (map find_all_children cs)) in *.
  apply Forall_cons in Hpos as [Hs Hpos]. simpl in Hs.
  assert (tables_len {| t_scopes := scopes'; t_header := header'; t_nodes := nodes' |} N)
    as Hlen1.
  { split_and!; simpl.
    - by rewrite (add_scopes_length _ _ _ _ Hscopes).
    - destruct (bool_decide (e - s = 0)); inv_res; [done|].
      by rewrite (py_modify_length _ _ _ _ Hheader).
    - by rewrite (py_modify_length _ _ _ _ Hnodes). }
  assert (s < Z.of_nat N ∧ e < Z.of_nat N) as Hnode.
  { apply py_modify_nonneg in Hnodes as [Hlt _]; [|done]. rewrite Hln in Hlt.
    split; [done|]. destruct (decide (s ≤ e)) as [Hse|]; [|lia].
    rewrite <- Hls. eapply (add_scopes_bound _ _ _ _ Hscopes).
    - intros x Hx%elem_of_range. lia.
    - apply elem_of_range. lia. }
  clear Hnodes Hheader Hscopes.
  generalize dependent {| t_scopes := scopes'; t_header := header'; t_nodes := nodes' |}.
  induction cs as [|c cs IHcs]; intros t1 Hrun Hlen1.
  { simpl in Hrun. inv_res. split; [done|]. by constructor. }
  simpl in Hrun. apply bind_Ok in Hrun as (t2 & Hc & Hrun).
  apply Forall_cons in IH as [IHc IH].
  simpl in Hpos. apply Forall_app in Hpos as [Hposc Hpos].
  destruct (IHc _ _ Hc Hposc Hlen1) as [Hlen2 Hin_c].
  destruct (IHcs IH Hpos _ Hrun Hlen2) as [Hlen' Hin].
  split; [done|]. apply Forall_cons in Hin as [_ Hin].
  constructor; [done|]. simpl. apply Forall_app. by split.
Qed.

Lemma walk_tree_within node (N : nat) :
  ∀ t, Forall (λ n, 0 ≤ start_line n) (find_all_children node) →
       Forall (λ n, start_line n < Z.of_nat N ∧ end_line n < Z.of_nat N)
              (find_all_children node) →
       tables_len t N →
       ∃ t', walk_tree node t = Ok t'.
Proof.
  induction node as [s e cs IH] using Node_ind_list.
  intros t Hpos Hin (Hls & Hlh & Hln).
  change (find_all_children (mkNode s e cs))
    with (mkNode s e cs :: concat (map find_all_children cs)) in *.
  apply Forall_cons in Hpos as [Hs Hpos]. apply Forall_cons in Hin as [[Hs' He] Hin].
  simpl in Hs, Hs', He. simpl.
  destruct (py_modify_within (t_nodes t) s (λ l, l ++ [mkNode s e cs]))
    as [nodes' Hnodes]; [lia|].
  rewrite Hnodes. simpl.
  assert (∃ header',
            (if bool_decide (e - s = 0) then Ok (t_header t)
             else py_modify (t_header t) s (λ l, l ++ [(e - s, s, e)])) = Ok header'
            ∧ length header' = N) as (header' & Hheader & Hlh').
  { case_bool_decide; [eauto|].
    destruct (py_modify_within (t_header t) s (λ l, l ++ [(e - s, s, e)]))
      as [h Hh]; [lia|].
    exists h. split; [done|]. by rewrite (py_modify_length _ _ _ _ Hh). }
  rewrite Hheader. simpl.
  destruct (add_scopes_within s (range s (e + 1)) (t_scopes t)) as [scopes' Hscopes].
  { intros x Hx%elem_of_range. lia. }
  rewrite Hscopes. simpl.
  assert (tables_len {| t_scopes := scopes'; t_header := header'; t_nodes := nodes' |} N)
    as Hlen1.
  { split_and!; simpl; [|done|].
    - by rewrite (add_scopes_length _ _ _ _ Hscopes).
    - by rewrite (py_modify_length _ _ _ _ Hnodes). }
  clear Hnodes Hheader Hscopes.
  generalize dependent {| t_scopes := scopes'; t_header := header'; t_nodes := nodes' |}.
  induction cs as [|c cs IHcs]; intros t1 Hlen1; simpl; [eauto|].
  apply Forall_cons in IH as [IHc IH].
  simpl in Hpos, Hin.
  apply Forall_app in Hpos as [Hposc Hpos]. apply Forall_app in Hin as [Hinc Hin].
  destruct (IHc t1 Hposc Hinc Hlen1) as [t2 Hc]. rewrite Hc. simpl.
  apply (IHcs IH Hpos Hin).
  by destruct (walk_tree_bound c N _ _ Hc Hposc Hlen1).
Qed.

Lemma empty_tables_len (n : nat) : tables_len (empty_tables n) n.
Proof. unfold tables_len, empty_tables. simpl. by rewrite !length_replicate. Qed.

Lemma init_walk cfg ls root tc :
  init cfg ls root = Ok tc →
  ∃ t, walk_tree root (empty_tables (length ls + 1)) = Ok t ∧
       config tc = cfg ∧ lines tc = ls ∧ scopes tc = t_scopes t ∧
       nodes tc = t_nodes t ∧ length (header tc) = length (t_header t).
Proof.
  unfold init. intros Hinit. inv_res. exists r. simpl.
  split_and!; try done. by rewrite length_imap.
Qed.

Lemma init_rows_within cfg lines root tc :
  init cfg lines root = Ok tc → rows_nonneg root →
  rows_within (Z.of_nat (length lines) + 1) root ∧
  length (scopes tc) = (length lines + 1)%nat ∧
  length (header tc) = (length lines + 1)%nat ∧
  length (nodes tc) = (length lines + 1)%nat.
Proof.
  intros (t & Hwalk & _ & _ & -> & -> & ->)%init_walk Hrows.
  destruct (walk_tree_bound _ _ _ _ Hwalk Hrows (empty_tables_len _))
    as [(? & ? & ?) Hin].
  split_and!; try done. unfold rows_within.
  eapply Forall_impl; [exact Hin|]. simpl. intros. lia.
Qed.



(** X2. After construction the three tables have [num_lines] entries, and
    the entry of [self.nodes] for line [i] lists the nodes of the tree that
    start on row [i], in the order of the traversal. *)
Theorem nodes_by_line (cfg : Config) (lines : list string) (root : Node)
    (tc : TreeContext) :
  init cfg lines root = Ok tc →
  rows_nonneg root →
  Z.of_nat (length (scopes tc)) = num_lines tc ∧
  Z.of_nat (length (header tc)) = num_lines tc ∧
  Z.of_nat (length (nodes tc)) = num_lines tc ∧
  ∀ i, 0 ≤ i < num_lines tc →
       py_get (nodes tc) i = Ok (nodes_at (find_all_children root) i).
Proof.
  intros Hinit Hrows.
  destruct (init_rows_within _ _ _ _ Hinit Hrows) as (_ & Hls & Hlh & Hln).
  destruct (init_walk _ _ _ _ Hinit) as (_ & _ & _ & Hlines & _).
  unfold num_lines. rewrite Hlines, Hls, Hlh, Hln.
  split_and!; [lia..|]. intros i Hi.
  destruct (init_tables _ _ _ _ Hinit Hrows (Z.to_nat i) ltac:(lia)) as (Hn & _ & _).
  rewrite Z2Nat.id in Hn by lia. by apply py_get_nonneg; [lia|].
Qed.

Lemma nodes_by_line_witness :
  Z.of_nat (length (scopes block_tc)) = num_lines block_tc ∧
  Z.of_nat (length (header block_tc)) = num_lines block_tc ∧
  Z.of_nat (length (nodes block_tc)) = num_lines block_tc ∧
  ∀ i, 0 ≤ i < num_lines block_tc →
       py_get (nodes block_tc) i = Ok (nodes_at (find_all_children block_root) i).
Proof.
  apply (nodes_by_line default_config ten_lines);
    [vm_compute; reflexivity | compute_done].
Defined.

(** X3. After construction, [s] is in [self.scopes[i]] exactly when some node
    of the tree starts on row [s] and spans row [i]. *)
Theorem scopes_by_line (cfg : Config) (lines : list string) (root : Node)
    (tc : TreeContext) (i : Z) :
  init cfg lines root = Ok tc →
  rows_nonneg root →
  0 ≤ i < num_lines tc →
  ∃ sc, py_get (scopes tc) i = Ok sc ∧
        ∀ s, s ∈ sc ↔
             ∃ n, n ∈ find_all_children root ∧ start_line n = s ∧
                  s ≤ i ≤ end_line n.
Proof.
  intros Hinit Hrows Hi.
  destruct (init_walk _ _ _ _ Hinit) as (_ & _ & _ & Hlines & _).
  unfold num_lines in Hi. rewrite Hlines in Hi.
  destruct (init_tables _ _ _ _ Hinit Hrows (Z.to_nat i) ltac:(lia)) as (_ & Hs & _).
  rewrite Z2Nat.id in Hs by lia.
  exists (scopes_at (find_all_children root) i).
  split; [by apply py_get_nonneg; [lia|]|].
  intros s. unfold scopes_at.
  rewrite elem_of_list_to_set, list_elem_of_fmap. split.
  - intros (n & -> & (Hspan & Hn)%list_elem_of_filter). eauto.
  - intros (n & Hn & <- & Hspan). exists n. split; [done|].
    by apply list_elem_of_filter.
Qed.

Lemma scopes_by_line_witness :
  ∃ sc, py_get (scopes block_tc) 6 = Ok sc ∧
        ∀ s, s ∈ sc ↔
             ∃ n, n ∈ find_all_children block_root ∧ start_line n = s ∧
                  s ≤ 6 ≤ end_line n.
Proof.
  apply (scopes_by_line default_config ten_lines block_root block_tc 6);
    [vm_compute; reflexivity | compute_done | vm_compute; split; [discriminate|reflexivity]].
Defined.

(** X4. After construction, for trees whose rows are in order and with
    [header_max] at least 1, the header of every line [i] starts at [i], is
    not empty, spans at most [header_max] lines and ends within the tables. *)
Theorem header_bounds (cfg : Config) (lines : list string) (root : Node)
    (tc : TreeContext) (i : Z) :
  init cfg lines root = Ok tc →
  rows_nonneg root →
  rows_ordered root →
  1 ≤ header_max cfg →
  0 ≤ i < num_lines tc →
  ∃ head_end, py_get (header tc) i = Ok (i, head_end) ∧
              i < head_end ≤ i + header_max cfg ∧ head_end ≤ num_lines tc.
Proof.
  intros Hinit Hrows Hord Hmax Hi.
  destruct (init_walk _ _ _ _ Hinit) as (_ & _ & _ & Hlines & _).
  unfold num_lines in *. rewrite Hlines in *.
  destruct (init_rows_within _ _ _ _ Hinit Hrows) as (Hin & _).
  destruct (init_tables _ _ _ _ Hinit Hrows (Z.to_nat i) ltac:(lia)) as (_ & _ & Hh).
  rewrite Z2Nat.id in Hh by lia. apply py_get_nonneg in Hh; [|lia].
  destruct (decide (length (candidates_at (find_all_children root) i) < 2)%nat)
    as [Hfew|Hmany].
  - rewrite finalize_header_few in Hh by done. exists (i + 1). split; [done|lia].
  - destruct (finalize_header_least cfg i (candidates_at (find_all_children root) i))
      as (size & hs & he & Hc & _ & Heq); [lia|].
    apply elem_of_candidates_at in Hc as (n & Hn & Hstart & Hne & Hc).
    injection Hc as -> -> ->. rewrite Heq in Hh.
    unfold rows_ordered in Hord. rewrite Forall_forall in Hord.
    unfold rows_within in Hin. rewrite Forall_forall in Hin.
    specialize (Hord _ Hn). destruct (Hin _ Hn) as [_ Hend].
    eexists. split; [exact Hh|]. case_bool_decide; lia.
Qed.

Lemma header_bounds_witness :
  ∃ head_end, py_get (header nested_tc) 0 = Ok (0, head_end) ∧
              0 < head_end ≤ 0 + header_max default_config ∧
              head_end ≤ num_lines nested_tc.
Proof.
  apply (header_bounds default_config ten_lines nested_root nested_tc 0);
    [vm_compute; reflexivity | compute_done | compute_done
    | vm_compute; discriminate | vm_compute; split; [discriminate|reflexivity]].
Defined.

Lemma foldl_max_attained (ns : list Node) (m : Z) :
  foldl (λ m n', Z.max m (end_line n')) m ns = m ∨
  ∃ n, n ∈ ns ∧ end_line n = foldl (λ m n', Z.max m (end_line n')) m ns.
Proof.
  revert m. induction ns as [|n ns IH]; intros m; simpl; [by left|].
  destruct (IH (Z.max m (end_line n))) as [Heq|(n' & Hn' & Heq)].
  - rewrite Heq. destruct (Z.max_spec m (end_line n)) as [[_ ->]|[_ ->]].
    + right. exists n. split; [left|done].
    + by left.
  - right. exists n'. split; [by right|done].
Qed.

(** X5. [get_last_line_of_scope(i)] raises [ValueError] when no node starts
    on line [i]; otherwise it returns the largest end row of the nodes
    starting there: an upper bound of their end rows that one of them
    attains. *)
Theorem last_line_of_scope_max (tc : TreeContext) (i : Z) (ns : list Node) :
  py_get (nodes tc) i = Ok ns →
  match ns with
  | [] => get_last_line_of_scope tc i = Raise ValueError
  | _ :: _ =>
      ∃ last, get_last_line_of_scope tc i = Ok last ∧
              (∀ n, n ∈ ns → end_line n ≤ last) ∧
              (∃ n, n ∈ ns ∧ end_line n = last)
  end.
Proof.
  intros Hns. unfold get_last_line_of_scope. rewrite Hns. simpl.
  destruct ns as [|n ns]; [done|].
  eexists. split; [reflexivity|].
  destruct (foldl_max_ge ns (end_line n)) as [H0 Hrest]. split.
  - intros m [->|Hm]%elem_of_cons; auto.
  - destruct (foldl_max_attained ns (end_line n)) as [Heq|(m & Hm & Heq)].
    + exists n. split; [left|done].
    + exists m. split; [by right|done].
Qed.

Lemma last_line_of_scope_max_witness :
  ∃ last, get_last_line_of_scope nested_tc 0 = Ok last ∧
          (∀ n, n ∈ [nested_root; mkNode 0 3 []] → end_line n ≤ last) ∧
          (∃ n, n ∈ [nested_root; mkNode 0 3 []] ∧ end_line n = last).
Proof.
  apply (last_line_of_scope_max nested_tc 0 [nested_root; mkNode 0 3 []]).
  vm_compute. reflexivity.
Defined.

(** ** When the expansion raises *)

Lemma bind_Raise {A B} (m : res A) (f : A → res B) (e : exn) :
  m ≫= f = Raise e ↔ m = Raise e ∨ ∃ a, m = Ok a ∧ f a = Raise e.
Proof.
  destruct m as [a|e'|]; simpl; split.
  - intros H. right. eauto.
  - intros [H|(a' & H & H')]; [done|]. by injection H as <-.
  - intros [= ->]. by left.
  - intros [[= ->]|(a' & H & H')]; done.
  - done.
  - intros [H|(a' & H & H')]; done.
Qed.

Lemma for_each_Raise {A S} (body : A → S → res S) (l : list A) (s : S) (e : exn) :
  for_each body l s = Raise e → ∃ x s', x ∈ l ∧ body x s' = Raise e.
Proof.
  revert s. induction l as [|x l IH]; intros s Hrun; simpl in Hrun; [done|].
  apply bind_Raise in Hrun as [Hx|(s1 & _ & Hrest)].
  - exists x, s. split; [left|done].
  - destruct (IH _ Hrest) as (y & s' & Hy & Hrun). exists y, s'. split; [by right|done].
Qed.

Lemma py_get_Raise {A} (l : list A) (i : Z) (e : exn) :
  py_get l i = Raise e →
  e = IndexError ∧ ¬ (- Z.of_nat (length l) ≤ i < Z.of_nat (length l)).
Proof.
  unfold py_get, py_index. repeat case_bool_decide; simpl.
  - destruct (lookup_lt_is_Some_2 l (Z.to_nat i)) as [x ->]; [lia|done].
  - destruct (lookup_lt_is_Some_2 l (Z.to_nat (Z.of_nat (length l) + i)))
      as [x ->]; [lia|done].
  - intros [= <-]. split; [done|lia].
Qed.

Lemma py_get_within {A} (l : list A) (i : Z) :
  - Z.of_nat (length l) ≤ i < Z.of_nat (length l) →
  ∃ (k : nat) x, py_get l i = Ok x ∧ l !! k = Some x.
Proof.
  intros Hi. destruct (py_get l i) as [x|e|] eqn:Hget.
  - apply py_get_Ok in Hget as (_ & k & _ & Hk). eauto.
  - apply py_get_Raise in Hget as [_ Hout]. lia.
  - by apply py_get_fuel in Hget.
Qed.

Lemma elem_of_concat_map {A B} (f : A → list B) (l : list A) (y : B) :
  y ∈ concat (map f l) ↔ ∃ x, x ∈ l ∧ y ∈ f x.
Proof.
  induction l as [|x l IH]; simpl.
  - split; [by intros ?%elem_of_nil | by intros (? & ?%elem_of_nil & _)].
  - rewrite elem_of_app, IH. split.
    + intros [Hy|(x' & Hx' & Hy)]; [exists x; split; [left|done]|].
      exists x'. split; [by right|done].
    + intros (x' & [->|Hx']%elem_of_cons & Hy); [by left | right; eauto].
Qed.

Lemma find_all_children_self (n : Node) : n ∈ find_all_children n.
Proof. destruct n. left. Qed.

Lemma find_all_children_trans (root : Node) :
  ∀ n c, n ∈ find_all_children root → c ∈ find_all_children n →
         c ∈ find_all_children root.
Proof.
  induction root as [s e cs IH] using Node_ind_list. intros n c Hn Hc.
  change (find_all_children (mkNode s e cs))
    with (mkNode s e cs :: concat (map find_all_children cs)) in *.
  apply elem_of_cons in Hn as [->|Hn]; [done|].
  right. apply elem_of_concat_map in Hn as (x & Hx & Hn).
  apply elem_of_concat_map. exists x. split; [done|].
  rewrite Forall_forall in IH. by eapply IH.
Qed.

Lemma init_tables_ok cfg lines root tc :
  init cfg lines root = Ok tc → rows_nonneg root → rows_ordered root →
  tables_ok tc.
Proof.
  intros Hinit Hrows Hord.
  destruct (init_walk _ _ _ _ Hinit) as (_ & _ & _ & Hlines & _).
  destruct (init_rows_within _ _ _ _ Hinit Hrows) as (Hin & Hls & Hlh & Hln).
  pose proof Hrows as Hrows0. unfold rows_nonneg in Hrows. unfold rows_ordered in Hord. unfold rows_within in Hin.
  rewrite Forall_forall in Hrows, Hord, Hin.
  unfold tables_ok, num_lines. rewrite Hlines, Hls, Hlh, Hln.
  split_and!; [lia..| |].
  - intros k sc s Hk Hs.
    apply lookup_lt_Some in Hk as Hlt. rewrite Hls in Hlt.
    destruct (init_tables _ _ _ _ Hinit Hrows0 k ltac:(lia))
      as (_ & Hsc & _).
    rewrite Hsc in Hk. injection Hk as <-. unfold scopes_at in Hs.
    apply elem_of_list_to_set, list_elem_of_fmap in Hs
      as (n & -> & (Hspan & Hn)%list_elem_of_filter).
    specialize (Hrows _ Hn). specialize (Hord _ Hn). destruct (Hin _ Hn) as [Hs _].
    split; [lia|].
    destruct (init_tables _ _ _ _ Hinit Hrows0
                (Z.to_nat (start_line n)) ltac:(lia)) as (Hnodes & _ & _).
    rewrite Z2Nat.id in Hnodes by lia. apply py_get_nonneg in Hnodes; [|lia].
    assert (n ∈ nodes_at (find_all_children root) (start_line n)) as Hmem
      by (by apply list_elem_of_filter).
    unfold get_last_line_of_scope. rewrite Hnodes. simpl.
    destruct (nodes_at _ _) as [|n0 ns] eqn:Hat; [by apply elem_of_nil in Hmem|].
    eexists. split; [reflexivity|].
    destruct (foldl_max_ge ns (end_line n0)) as [H0 Hrest].
    apply elem_of_cons in Hmem as [->|Hmem]; [lia|].
    specialize (Hrest _ Hmem). lia.
  - intros k ns n c Hk Hn Hc.
    apply lookup_lt_Some in Hk as Hlt. rewrite Hln in Hlt.
    destruct (init_tables _ _ _ _ Hinit Hrows0 k ltac:(lia))
      as (Hnodes & _ & _).
    rewrite Hnodes in Hk. injection Hk as <-.
    apply list_elem_of_filter in Hn as [_ Hn].
    apply Hrows. by eapply find_all_children_trans.
Qed.

Lemma insert_by_span_perm (x : Node) (l : list Node) : insert_by_span x l ≡ₚ x :: l.
Proof.
  induction l as [|y l IH]; simpl; [done|].
  case_bool_decide; [done|]. rewrite IH. apply Permutation_swap.
Qed.

Lemma sort_by_span_perm (l : list Node) : sort_by_span l ≡ₚ l.
Proof.
  induction l as [|x l IH]; simpl; [done|].
  by rewrite insert_by_span_perm, IH.
Qed.

Lemma num_lines_pos tc : 1 ≤ num_lines tc.
Proof. unfold num_lines. lia. Qed.

Lemma elem_of_enumerate {A} (l : list A) (i : Z) (x : A) :
  (i, x) ∈ enumerate l ↔ 0 ≤ i ∧ l !! Z.to_nat i = Some x.
Proof.
  unfold enumerate. rewrite elem_of_lookup_imap. split.
  - intros (k & y & [= -> ->] & Hk). rewrite Nat2Z.id. split; [lia|done].
  - intros [Hi Hx]. exists (Z.to_nat i), x. split; [|done]. f_equal. lia.
Qed.

Lemma close_small_gaps_no_raise tc st : no_raise (close_small_gaps tc st).
Proof.
  intros e Hrun. unfold close_small_gaps in Hrun.
  apply bind_Raise in Hrun as [Hrun|(X & _ & Hrun)]; [|done].
  apply for_each_Raise in Hrun as ([i line] & X & [Hi Hline]%elem_of_enumerate & Hrun).
  apply lookup_lt_Some in Hline as Hlt.
  unfold attach_blank in Hrun. case_bool_decide; [done|].
  apply bind_Raise in Hrun as [Hrun|(cur & _ & Hrun)].
  { apply py_get_Raise in Hrun as [_ Hout]. lia. }
  destruct (negb (blank cur)); simpl in Hrun; [|done].
  case_bool_decide as Hnext; simpl in Hrun; [|done].
  unfold num_lines in Hnext.
  apply bind_Raise in Hrun as [Hrun|(next & _ & Hrun)].
  { apply py_get_Raise in Hrun as [_ Hout]. lia. }
  by destruct (blank next).
Qed.

Section raise_facts.
Variable tc : TreeContext.
Hypothesis Hok : tables_ok tc.

Lemma parent_scope_step_no_raise rec (k : nat) sc x st :
  scopes tc !! k = Some sc → x ∈ sc →
  (∀ last st1, 0 ≤ last → no_raise (rec last st1)) →
  no_raise (parent_scope_step tc rec x st).
Proof.
  destruct Hok as (Hls & Hlh & Hln & Hscopes & _).
  intros Hk Hx Hrec e Hrun.
  destruct (Hscopes _ _ _ Hk Hx) as (Hrange & last & Hlast & Hpos).
  unfold parent_scope_step in Hrun.
  apply bind_Raise in Hrun as [Hrun|([hs he] & _ & Hrun)].
  { apply py_get_Raise in Hrun as [_ Hout]. lia. }
  destruct (last_line (config tc)); [|done].
  rewrite Hlast in Hrun. simpl in Hrun. by eapply Hrec.
Qed.

Lemma add_parent_scopes_Raise fuel i st e :
  add_parent_scopes tc fuel i st = Raise e →
  e = IndexError ∧ i < - num_lines tc.
Proof.
  revert i st e. induction fuel as [|fuel IH]; intros i st e Hrun; [done|].
  simpl in Hrun. case_bool_decide; [done|]. case_bool_decide as Hlen; [done|].
  destruct Hok as (Hls & _).
  apply bind_Raise in Hrun as [Hrun|(sc & Hsc & Hrun)].
  { apply py_get_Raise in Hrun as [-> Hout]. split; [done|lia]. }
  exfalso. apply py_get_Ok in Hsc as (_ & k & _ & Hk).
  apply for_each_Raise in Hrun as (x & s' & Hx%elem_of_elements & Hrun).
  eapply parent_scope_step_no_raise; [exact Hk | exact Hx | | exact Hrun].
  intros last st1 Hlast e' Hrec. apply IH in Hrec as [_ Hneg].
  pose proof (num_lines_pos tc). lia.
Qed.

Lemma show_children_no_raise sz cur cs st :
  (∀ c, c ∈ cs → 0 ≤ start_line c) →
  no_raise (show_children tc sz cur cs st).
Proof.
  revert st. induction cs as [|c cs IH]; intros st Hpos e Hrun; simpl in Hrun; [done|].
  destruct (over_budget _ _ _); [done|].
  apply bind_Raise in Hrun as [Hrun|(st1 & _ & Hrun)].
  - apply add_parent_scopes_Raise in Hrun as [_ Hneg].
    pose proof (num_lines_pos tc). specialize (Hpos c ltac:(left)). lia.
  - eapply IH; [|exact Hrun]. intros. apply Hpos. by right.
Qed.

Lemma add_child_context_Raise i st e :
  add_child_context tc i st = Raise e → e = IndexError ∧ ¬ in_tables tc i.
Proof.
  destruct Hok as (_ & _ & Hln & _ & Hnodes).
  unfold add_child_context. intros Hrun.
  apply bind_Raise in Hrun as [Hrun|(ns & Hns & Hrun)].
  { apply py_get_Raise in Hrun as [-> Hout]. split; [done|].
    unfold in_tables. lia. }
  exfalso. destruct ns as [|n ns]; [done|].
  unfold get_last_line_of_scope in Hrun. rewrite Hns in Hrun. simpl in Hrun.
  case_bool_decide; [done|].
  apply py_get_Ok in Hns as (_ & k & _ & Hk).
  eapply show_children_no_raise; [|exact Hrun].
  intros c Hc. rewrite sort_by_span_perm in Hc.
  change (c ∈ concat (map find_all_children (n :: ns))) in Hc.
  apply elem_of_concat_map in Hc as (m & Hm & Hc). eauto.
Qed.

Lemma expand_Raise st0 e :
  expand tc st0 = Raise e →
  e = IndexError ∧ ∃ i, i ∈ lines_of_interest st0 ∧ ¬ in_tables tc i.
Proof.
  unfold expand. intros Hrun. pose proof (num_lines_pos tc) as Hpos.
  apply bind_Raise in Hrun as [Hrun|(st2 & _ & Hrun)].
  { destruct (last_line (config tc)); [|done].
    apply add_parent_scopes_Raise in Hrun as [_ Hneg]. lia. }
  apply bind_Raise in Hrun as [Hrun|(st3 & _ & Hrun)].
  { destruct (parent_context (config tc)); [|done].
    apply for_each_Raise in Hrun as (i & s' & Hi%elem_of_elements & Hrun).
    apply add_parent_scopes_Raise in Hrun as [-> Hneg].
    split; [done|]. exists i. split; [done|]. unfold in_tables. lia. }
  apply bind_Raise in Hrun as [Hrun|(st4 & _ & Hrun)].
  { destruct (child_context (config tc)); [|done].
    apply for_each_Raise in Hrun as (i & s' & Hi%elem_of_elements & Hrun).
    apply add_child_context_Raise in Hrun as [-> Hout]. eauto. }
  by apply close_small_gaps_no_raise in Hrun.
Qed.
End raise_facts.







(** ** Termination and provenance of the shown lines *)

(** X9. The recursion of [add_parent_scopes] ends: on every line and state
    its nesting never exceeds twice the length of [self.scopes] plus one. *)
Theorem parent_scopes_terminate (tc : TreeContext) (fuel : nat) (i : Z) (st : State) :
  (2 * length (scopes tc) < fuel)%nat →
  add_parent_scopes tc fuel i st ≠ OutOfFuel.
Proof.
  intros Hfuel. apply add_parent_scopes_fuel_aux.
  assert (pending tc st ≤ size (subscripts tc))%nat as Hle
    by (unfold pending; apply subseteq_size; set_solver).
  assert (size (subscripts tc) = 2 * length (scopes tc))%nat as Hsize.
  { unfold subscripts. rewrite size_list_to_set by apply NoDup_seqZ.
    rewrite length_seqZ. lia. }
  lia.
Qed.

Lemma parent_scopes_terminate_witness :
  add_parent_scopes block_tc 23 9 init_state ≠ OutOfFuel.
Proof.
  apply parent_scopes_terminate. change (length (scopes block_tc)) with 11%nat. lia.
Defined.

#[global] Instance adds_only_preorder P : PreOrder (adds_only P).
Proof.
  split.
  - intros st x Hx. by left.
  - intros a b c Hab Hbc x Hx. destruct (Hbc x Hx) as [Hb|?]; [|by right].
    by apply Hab.
Qed.

Lemma adds_only_set_show P st X :
  (∀ x, x ∈ X → x ∈ show_lines st ∨ P x) → adds_only P st (set_show st X).
Proof. intros HX x Hx. by apply HX. Qed.

Lemma adds_only_weaken (P Q : Z → Prop) st st' :
  (∀ x, P x → Q x) → adds_only P st st' → adds_only Q st st'.
Proof. intros HPQ Hadd x Hx. destruct (Hadd x Hx); auto. Qed.

Lemma add_parent_scopes_adds tc fuel i st st' :
  add_parent_scopes tc fuel i st = Ok st' → adds_only (header_line tc) st st'.
Proof.
  revert i st st'. induction fuel as [|fuel IH]; intros i st st' Hrun; [done|].
  simpl in Hrun. case_bool_decide; inv_res; [reflexivity|].
  case_bool_decide; inv_res; [by intros x Hx; left|].
  transitivity (set_done st ({[i]} ∪ done_parent_scopes st)); [by intros x Hx; left|].
  eapply (for_each_preserves _ (adds_only (header_line tc))); [|exact Hrun].
  intros s sa sb _ Hstep. unfold parent_scope_step in Hstep.
  apply bind_Ok in Hstep as ([hs he] & Hhead & Hstep).
  set (st1 := if _ || _ then _ else sa) in Hstep.
  assert (adds_only (header_line tc) sa st1) as Hst1.
  { subst st1. destruct (_ || _) eqn:Hcond; [|reflexivity].
    apply adds_only_set_show. intros x [Hx|Hx]%elem_of_update; [|by left].
    right. exists s, hs, he. split; [done|]. split; [by apply elem_of_range|].
    apply orb_true_iff in Hcond as [Hcond|Hcond]; [left|by right].
    by apply bool_decide_eq_true_1 in Hcond. }
  destruct (last_line (config tc)); inv_res; [|done].
  transitivity st1; [done|]. by eapply IH.
Qed.

(** X10. A call of [add_parent_scopes] that returns adds to the show set
    lines of header ranges only (ranges starting at line 0 only when the
    top-of-file flag is on), and it marks its line as processed. *)
Theorem parent_scopes_add_headers_only (tc : TreeContext) (fuel : nat) (i : Z)
    (st st' : State) :
  add_parent_scopes tc fuel i st = Ok st' →
  i ∈ done_parent_scopes st' ∧
  ∀ x, x ∈ show_lines st' → x ∈ show_lines st ∨ header_line tc x.
Proof.
  intros Hrun. split; [by eapply add_parent_scopes_marks|].
  by apply add_parent_scopes_adds in Hrun.
Qed.

Lemma parent_scopes_add_headers_only_witness :
  ∃ st', add_parent_scopes block_tc 23 6 init_state = Ok st' ∧
         (6 ∈ done_parent_scopes st' ∧
          ∀ x, x ∈ show_lines st' → x ∈ show_lines init_state ∨ header_line block_tc x).
Proof.
  eexists. split; [vm_compute; reflexivity|].
  apply (parent_scopes_add_headers_only block_tc 23 6 init_state).
  vm_compute. reflexivity.
Defined.

Lemma pad_line_spec tc line X x :
  x ∈ pad_line tc line X ↔
  x ∈ X ∨ (line - loi_pad (config tc) ≤ x ≤ line + loi_pad (config tc) ∧
           0 ≤ x < num_lines tc).
Proof.
  unfold pad_line.
  assert (∀ (l : list Z) (Y : gset Z), x ∈ foldl (λ acc new_line,
                    if bool_decide (num_lines tc ≤ new_line) || bool_decide (new_line < 0)
                    then acc else {[ new_line ]} ∪ acc) Y l ↔
                 x ∈ Y ∨ (x ∈ l ∧ 0 ≤ x < num_lines tc)) as Hfold.
  { induction l as [|y l IH]; intros Y; simpl.
    - split; [by left | by intros [?|[?%elem_of_nil _]]].
    - rewrite IH, elem_of_cons.
      destruct (decide (num_lines tc ≤ y ∨ y < 0)) as [Hout|Hin].
      + replace (bool_decide (num_lines tc ≤ y) || bool_decide (y < 0)) with true.
        2:{ symmetry. apply orb_true_iff.
            destruct Hout; [left|right]; by apply bool_decide_eq_true_2. }
        naive_solver lia.
      + replace (bool_decide (num_lines tc ≤ y) || bool_decide (y < 0)) with false.
        2:{ symmetry. apply orb_false_iff.
            split; apply bool_decide_eq_false_2; lia. }
        rewrite elem_of_union, elem_of_singleton. naive_solver lia. }
  rewrite Hfold, elem_of_range. naive_solver lia.
Qed.

Lemma pad_all_spec tc (l : list Z) X x :
  x ∈ foldl (λ acc line, pad_line tc line acc) X l ↔
  x ∈ X ∨ ∃ line, line ∈ l ∧
                  line - loi_pad (config tc) ≤ x ≤ line + loi_pad (config tc) ∧
                  0 ≤ x < num_lines tc.
Proof.
  revert X. induction l as [|y l IH]; intros X; simpl.
  - split; [by left | by intros [?|(? & ?%elem_of_nil & _)]].
  - rewrite IH, pad_line_spec. split.
    + intros [[?|?]|(line & ? & ?)]; [by left | |].
      * right. exists y. split; [left|done].
      * right. exists line. split; [by right|done].
    + intros [?|(line & [->|?]%elem_of_cons & ?)]; [by left; left | by left; right |].
      right. eauto.
Qed.

(** The stages of [expand], one by one. *)
Lemma expand_trace tc st0 st' :
  expand tc st0 = Ok st' →
  ∃ st1 st2 st3 st4 st5,
    st1 = (if bool_decide (loi_pad (config tc) = 0) then st0
           else set_show st0 (foldl (λ acc line, pad_line tc line acc)
                                    (show_lines st0) (elements (show_lines st0)))) ∧
    (if last_line (config tc) then
       add_parent_scopes tc (enough_fuel tc) (num_lines tc - 2)
         (set_show st1 ({[ num_lines tc - 2 ]} ∪ show_lines st1))
     else Ok st1) = Ok st2 ∧
    (if parent_context (config tc) then
       for_each (add_parent_scopes tc (enough_fuel tc))
         (elements (lines_of_interest st0)) st2
     else Ok st2) = Ok st3 ∧
    (if child_context (config tc) then
       for_each (add_child_context tc) (elements (lines_of_interest st0)) st3
     else Ok st3) = Ok st4 ∧
    st5 = (if bool_decide (margin (config tc) = 0) then st4
           else set_show st4 (update (show_lines st4) (range 0 (margin (config tc))))) ∧
    close_small_gaps tc st5 = Ok st'.
Proof.
  unfold expand. intros Hrun.
  apply bind_Ok in Hrun as (st2 & H2 & Hrun).
  apply bind_Ok in Hrun as (st3 & H3 & Hrun).
  apply bind_Ok in Hrun as (st4 & H4 & Hrun).
  eexists _, st2, st3, st4, _. split_and!; try reflexivity; done.
Qed.

(** X11. When [add_context] returns on a non-empty interest set, the show
    set holds the padding of every line of interest as far as it lies in
    [[0, num_lines)], the margin lines [[0, margin)], and, with [last_line]
    on, the bottom line [num_lines - 2]. *)
Theorem context_lines_shown (tc : TreeContext) (st st' : State) :
  add_context tc st = Ok st' →
  lines_of_interest st ≠ ∅ →
  (∀ l k, l ∈ lines_of_interest st →
          l - loi_pad (config tc) ≤ k ≤ l + loi_pad (config tc) →
          0 ≤ k < num_lines tc → k ∈ show_lines st') ∧
  (∀ k, 0 ≤ k < margin (config tc) → k ∈ show_lines st') ∧
  (last_line (config tc) = true → num_lines tc - 2 ∈ show_lines st').
Proof.
  intros Hrun Hloi. unfold add_context in Hrun.
  rewrite bool_decide_eq_false_2 in Hrun by done.
  set (st0 := set_show (set_done st ∅) (lines_of_interest st)) in *.
  apply expand_trace in Hrun as (st1 & st2 & st3 & st4 & st5 & H1 & H2 & H3 & H4 & H5 & H6).
  assert (grows st2 st3) as (_ & _ & H23 & _).
  { destruct (parent_context (config tc)); inv_res; [|reflexivity].
    eapply (for_each_preserves _ grows); [|eassumption].
    intros. eapply add_parent_scopes_grows; eassumption. }
  assert (grows st3 st4) as (_ & _ & H34 & _) by (by eapply child_stage_grows).
  assert (show_lines st4 ⊆ show_lines st5) as H45.
  { subst st5. destruct (bool_decide (margin (config tc) = 0)); [done|].
    intros x. simpl. rewrite elem_of_update. auto. }
  apply close_small_gaps_grows in H6 as (_ & _ & H56 & _).
  split_and!.
  - intros l k Hl Hk Hrange. apply H56, H45, H34, H23.
    assert (k ∈ show_lines st1) as Hk1.
    { subst st1. destruct (bool_decide (loi_pad (config tc) = 0)) eqn:Hpad.
      - apply bool_decide_eq_true_1 in Hpad. simpl.
        assert (k = l) as -> by lia. done.
      - simpl. apply pad_all_spec. right. exists l.
        split; [by apply elem_of_elements|done]. }
    destruct (last_line (config tc)); inv_res; [|done].
    apply add_parent_scopes_grows in H2 as (_ & _ & H2 & _).
    apply H2. simpl. set_solver.
  - intros k Hk. apply H56. subst st5.
    rewrite bool_decide_eq_false_2 by lia. simpl.
    apply elem_of_update. left. by apply elem_of_range.
  - intros Hlast. apply H56, H45, H34, H23. rewrite Hlast in H2.
    apply add_parent_scopes_grows in H2 as (_ & _ & H2 & _).
    apply H2. simpl. set_solver.
Qed.

Lemma context_lines_shown_witness :
  ∃ st', add_context block_tc (interest {[ 6 ]}) = Ok st' ∧
         ((∀ l k, l ∈ lines_of_interest (interest {[ 6 ]}) →
                  l - loi_pad (config block_tc) ≤ k ≤ l + loi_pad (config block_tc) →
                  0 ≤ k < num_lines block_tc → k ∈ show_lines st') ∧
          (∀ k, 0 ≤ k < margin (config block_tc) → k ∈ show_lines st') ∧
          (last_line (config block_tc) = true →
           num_lines block_tc - 2 ∈ show_lines st')).
Proof.
  eexists. split; [vm_compute; reflexivity|].
  apply (context_lines_shown block_tc (interest {[ 6 ]}));
    [vm_compute; reflexivity | compute_done].
Defined.

Lemma show_children_adds tc sz cur cs st st' :
  show_children tc sz cur cs st = Ok st' → adds_only (header_line tc) st st'.
Proof.
  revert st. induction cs as [|c cs IH]; intros st Hrun; simpl in Hrun.
  - inv_res. reflexivity.
  - destruct (over_budget _ _ _); inv_res; [reflexivity|].
    transitivity r; [eapply add_parent_scopes_adds; eassumption | by apply IH].
Qed.

Lemma add_child_context_adds tc (loi : gset Z) i st st' :
  i ∈ loi → child_context (config tc) = true →
  add_child_context tc i st = Ok st' → adds_only (accounted tc loi) st st'.
Proof.
  intros Hi Hchild Hrun. unfold add_child_context in Hrun.
  apply bind_Ok in Hrun as (ns & Hns & Hrun).
  destruct ns as [|n ns]; inv_res; [reflexivity|].
  case_bool_decide as Hsmall; inv_res.
  - apply adds_only_set_show. intros x [Hx%elem_of_range|Hx]%elem_of_update; [|by left].
    right. do 4 right. left. split; [done|]. exists i, r. split_and!; (done || lia).
  - eapply adds_only_weaken; [|eapply show_children_adds; eassumption].
    intros x Hx. do 3 right. by left.
Qed.

(** X12. When [add_context] returns on a non-empty interest set, every line
    in the show set as it stands before gap closing is a line of interest,
    a padding line within [[0, num_lines)], the bottom line, a line of a
    header range, a line of a small scope starting at a line of interest, or
    a margin line. *)
Theorem shown_lines_accounted (tc : TreeContext) (st st' : State) :
  add_context tc st = Ok st' →
  lines_of_interest st ≠ ∅ →
  ∃ st5, close_small_gaps tc st5 = Ok st' ∧
         ∀ x, x ∈ show_lines st5 → accounted tc (lines_of_interest st) x.
Proof.
  intros Hrun Hloi. unfold add_context in Hrun.
  rewrite bool_decide_eq_false_2 in Hrun by done.
  set (loi := lines_of_interest st) in *.
  set (st0 := set_show (set_done st ∅) loi) in *.
  apply expand_trace in Hrun as (st1 & st2 & st3 & st4 & st5 & H1 & H2 & H3 & H4 & H5 & H6).
  exists st5. split; [done|].
  assert (adds_only (accounted tc loi) st0 st1) as H01.
  { subst st1. destruct (bool_decide (loi_pad (config tc) = 0)); [reflexivity|].
    apply adds_only_set_show. intros x [Hx|(l & Hl & Hx)]%pad_all_spec; [by left|].
    right. right. left. exists l. split; [|done].
    apply elem_of_elements in Hl. done. }
  assert (adds_only (accounted tc loi) st1 st2) as H12.
  { destruct (last_line (config tc)) eqn:Hlast; inv_res; [|reflexivity].
    transitivity (set_show st1 ({[num_lines tc - 2]} ∪ show_lines st1)).
    - apply adds_only_set_show. intros x [->%elem_of_singleton|Hx]%elem_of_union;
        [|by left].
      right. do 2 right. by left.
    - eapply adds_only_weaken; [|eapply add_parent_scopes_adds; eassumption].
      intros x Hx. do 3 right. by left. }
  assert (adds_only (accounted tc loi) st2 st3) as H23.
  { destruct (parent_context (config tc)); inv_res; [|reflexivity].
    eapply (for_each_preserves _ (adds_only (accounted tc loi))); [|eassumption].
    intros i sa sb _ Hstep.
    eapply adds_only_weaken; [|eapply add_parent_scopes_adds; eassumption].
    intros x Hx. do 3 right. by left. }
  assert (adds_only (accounted tc loi) st3 st4) as H34.
  { destruct (child_context (config tc)) eqn:Hchild; inv_res; [|reflexivity].
    eapply (for_each_preserves _ (adds_only (accounted tc loi))); [|eassumption].
    intros i sa sb Hi%elem_of_elements Hstep.
    by eapply add_child_context_adds. }
  assert (adds_only (accounted tc loi) st4 st5) as H45.
  { subst st5. destruct (bool_decide (margin (config tc) = 0)); [reflexivity|].
    apply adds_only_set_show. intros x [Hx%elem_of_range|Hx]%elem_of_update; [|by left].
    right. by do 5 right. }
  assert (adds_only (accounted tc loi) st0 st5) as H05
    by (repeat (etransitivity; [eassumption|]); reflexivity).
  intros x Hx. destruct (H05 x Hx) as [Hx0|?]; [|done]. by left.
Qed.

Lemma shown_lines_accounted_witness :
  ∃ st', add_context block_tc (interest {[ 6 ]}) = Ok st' ∧
         ∃ st5, close_small_gaps block_tc st5 = Ok st' ∧
                ∀ x, x ∈ show_lines st5 →
                     accounted block_tc (lines_of_interest (interest {[ 6 ]})) x.
Proof.
  eexists. split; [vm_compute; reflexivity|].
  apply (shown_lines_accounted block_tc (interest {[ 6 ]}));
    [vm_compute; reflexivity | compute_done].
Defined.

(** ** Gap closing *)

Lemma fill_gaps_only (l : list Z) (X : gset Z) (x : Z) :
  x ∈ fill_gaps l X →
  x ∈ X ∨ ∃ a b, consecutive l a b ∧ b - a = 2 ∧ x = a + 1.
Proof.
  revert X. induction l as [|a l IH]; intros X Hx; [by left|].
  destruct l as [|b l]; [by left|].
  rewrite fill_gaps_cons in Hx. apply IH in Hx as [Hx|(a' & b' & (l1 & l2 & Hl) & ?)].
  - case_bool_decide as Hgap; [|by left].
    apply elem_of_union in Hx as [->%elem_of_singleton|Hx]; [|by left].
    right. exists a, b. split; [by exists [], l|done].
  - right. exists a', b'. split; [|done]. exists (a :: l1), l2. by rewrite Hl.
Qed.

Lemma consecutive_elem_of (l : list Z) (a b : Z) :
  consecutive l a b → a ∈ l ∧ b ∈ l.
Proof.
  intros (l1 & l2 & ->). rewrite !elem_of_app, !elem_of_cons. naive_solver.
Qed.


Lemma attach_blank_step tc (k : nat) (x : string) (X X1 : gset Z) :
  attach_blank tc (Z.of_nat k, x) X = Ok X1 →
  lines tc !! k = Some x →
  X ⊆ X1 ∧
  (∀ y, y ∈ X1 → y ∈ X ∨ y = Z.of_nat k + 1) ∧
  (Z.of_nat k ∈ X → ∀ next, lines tc !! S k = Some next →
     blank x = false → blank next = true → Z.of_nat k + 1 ∈ X1).
Proof.
  intros Hstep Hx. pose proof (attach_blank_subseteq _ _ _ _ Hstep) as Hsub.
  split; [done|]. unfold attach_blank in Hstep.
  assert (py_get (lines tc) (Z.of_nat k) = Ok x) as Hget
    by (apply py_get_nonneg; [lia|]; by rewrite Nat2Z.id).
  case_bool_decide as Hin.
  { inv_res. split; [by left|]. intros Hk. done. }
  rewrite Hget in Hstep. simpl in Hstep.
  destruct (blank x) eqn:Hcur; simpl in Hstep.
  { inv_res. split; [by left|]. intros _ ? _ ?. done. }
  case_bool_decide as Hlast; simpl in Hstep.
  - apply bind_Ok in Hstep as (next & Hnext & Hstep).
    apply py_get_nonneg in Hnext; [|lia].
    replace (Z.to_nat (Z.of_nat k + 1)) with (S k) in Hnext by lia.
    destruct (blank next) eqn:Hblank; inv_res.
    + split; [intros y; rewrite elem_of_union, elem_of_singleton; naive_solver|].
      intros. set_solver.
    + split; [by left|]. intros _ next' Hnext' _ Hb. congruence.
  - inv_res. split; [by left|]. intros _ next Hnext _ _.
    apply lookup_lt_Some in Hnext. unfold num_lines in Hlast. lia.
Qed.

Lemma attach_loop tc (l : list string) :
  ∀ (k : nat) (X X' : gset Z),
    l = drop k (lines tc) →
    for_each (attach_blank tc) (imap (λ j x, (Z.of_nat (k + j), x)) l) X = Ok X' →
    (∀ y, y ∈ X' → y ∈ X ∨ Z.of_nat k < y) ∧
    (∀ (i : nat) cur next, (k ≤ i)%nat → Z.of_nat i ∈ X' →
       lines tc !! i = Some cur → lines tc !! S i = Some next →
       blank cur = false → blank next = true → Z.of_nat i + 1 ∈ X').
Proof.
  induction l as [|x l IH]; intros k X X' Hl Hrun.
  { simpl in Hrun. inv_res. split; [by left|].
    intros i cur next Hi _ Hcur. exfalso.
    assert (length (drop k (lines tc)) = 0)%nat as Hlen by by rewrite <- Hl.
    rewrite length_drop in Hlen. apply lookup_lt_Some in Hcur. lia. }
  rewrite imap_cons in Hrun. simpl in Hrun.
  apply bind_Ok in Hrun as (X1 & Hstep & Hrun).
  rewrite (imap_ext _ (λ j y, (Z.of_nat (S k + j), y))) in Hrun
    by (intros; simpl; do 2 f_equal; lia).
  rewrite Nat.add_0_r in Hstep.
  assert (lines tc !! k = Some x) as Hx.
  { rewrite <- (Nat.add_0_r k), <- lookup_drop, <- Hl. done. }
  assert (l = drop (S k) (lines tc)) as Hl'.
  { change l with (drop 1 (x :: l)). rewrite Hl, drop_drop. f_equal. lia. }
  destruct (attach_blank_step _ _ _ _ _ Hstep Hx) as (Hsub & Honly & Hadd).
  destruct (IH _ _ _ Hl' Hrun) as [HA HB].
  assert (X1 ⊆ X') as Hsub'.
  { eapply (for_each_preserves _ (⊆)); [|exact Hrun].
    intros. by eapply attach_blank_subseteq. }
  split.
  - intros y Hy. destruct (HA y Hy) as [Hy1|?]; [|right; lia].
    destruct (Honly y Hy1) as [?| ->]; [by left | right; lia].
  - intros i cur next Hi Hin Hcur Hnext Hb Hb'.
    destruct (decide (i = k)) as [->|Hne].
    + apply Hsub'. rewrite Hx in Hcur. injection Hcur as ->.
      eapply Hadd; [|done..].
      destruct (HA _ Hin) as [Hk1|?]; [|lia].
      destruct (Honly _ Hk1) as [?|?]; [done|lia].
    + eapply HB; [|done..]. lia.
Qed.



(** ** Ranking of the descendants *)

Lemma insert_by_span_sorted (x : Node) (l : list Node) :
  StronglySorted (λ a b, span b ≤ span a) l →
  StronglySorted (λ a b, span b ≤ span a) (insert_by_span x l).
Proof.
  induction l as [|y l IH]; intros Hsorted; simpl.
  { repeat constructor. }
  apply StronglySorted_inv in Hsorted as [Hl Hy].
  case_bool_decide as Hle.
  - constructor; [by constructor|]. constructor; [done|].
    eapply Forall_impl; [exact Hy|]. simpl. intros. lia.
  - constructor; [by apply IH|].
    rewrite insert_by_span_perm. constructor; [lia|done].
Qed.

Lemma insert_by_span_filter (k : Z) (x : Node) (l : list Node) :
  filter (λ n, span n = k) (insert_by_span x l) = filter (λ n, span n = k) (x :: l).
Proof.
  induction l as [|y l IH]; simpl; [done|].
  case_bool_decide as Hle; [done|].
  rewrite !filter_cons in *. rewrite IH.
  destruct (decide (span x = k)) as [Hx|Hx], (decide (span y = k)) as [Hy|Hy];
    try done. lia.
Qed.

(** X15. The ranking of the descendants in [add_child_context] is a stable
    sort by span, largest first: it permutes its input, spans never increase
    along the result, and nodes of equal span keep their order. *)
Theorem children_ranking (l : list Node) :
  sort_by_span l ≡ₚ l ∧
  StronglySorted (λ a b, span b ≤ span a) (sort_by_span l) ∧
  ∀ k, filter (λ n, span n = k) (sort_by_span l) = filter (λ n, span n = k) l.
Proof.
  split; [apply sort_by_span_perm|]. split.
  - induction l as [|x l IH]; simpl; [constructor|]. by apply insert_by_span_sorted.
  - intros k. induction l as [|x l IH]; simpl; [done|].
    rewrite insert_by_span_filter, !filter_cons, IH. done.
Qed.

(** ** Rendering and sessions *)

Lemma append_nonempty_l (s t : string) : s ≠ EmptyString → s +:+ t ≠ EmptyString.
Proof. by destruct s. Qed.

Lemma append_nonempty_r (s t : string) : t ≠ EmptyString → s +:+ t ≠ EmptyString.
Proof. by destruct s, t. Qed.

Lemma format_line_nonempty tc st acc il :
  acc.1 ≠ EmptyString → (format_line tc st acc il).1 ≠ EmptyString.
Proof.
  destruct acc as [output dots], il as [i line]. simpl. intros Hout.
  case_bool_decide; [destruct dots; simpl; [|done]|]; simpl;
    by apply append_nonempty_l.
Qed.

Lemma format_loop_nonempty tc st (l : list (Z * string)) acc :
  acc.1 ≠ EmptyString → (foldl (format_line tc st) acc l).1 ≠ EmptyString.
Proof.
  revert acc. induction l as [|il l IH]; intros acc Hacc; simpl; [done|].
  by apply IH, format_line_nonempty.
Qed.

(** X16. [format] returns the empty string exactly when the show set is
    empty, or when there is no line at all and [color] is off. *)
Theorem format_empty_iff (tc : TreeContext) (st : State) :
  format tc st = EmptyString ↔
  show_lines st = ∅ ∨ (lines tc = [] ∧ color (config tc) = false).
Proof.
  unfold format. case_bool_decide as Hshow; [by split; [left|]|].
  unfold enumerate. destruct (lines tc) as [|x l] eqn:Hlines.
  { simpl. destruct (color (config tc)); simpl.
    - split; [done | by intros [?|[_ ?]]].
    - split; [intros _; by right | done]. }
  split; [|by intros [?|[? _]]].
  intros Hempty. exfalso. revert Hempty. rewrite imap_cons. simpl.
  apply format_loop_nonempty.
  case_bool_decide as H0.
  - assert (negb (bool_decide (0 ∈ show_lines st)) = true) as ->
      by (by apply negb_true_iff, bool_decide_eq_false_2).
    simpl. apply append_nonempty_r.
    destruct (line_number (config tc)); [|done].
    apply append_nonempty_r. done.
  - simpl. apply append_nonempty_r. apply append_nonempty_r. done.
Qed.

Lemma for_each_app {A S} (body : A → S → res S) (l1 l2 : list A) (s : S) :
  for_each body (l1 ++ l2) s = for_each body l1 s ≫= for_each body l2.
Proof.
  revert s. induction l1 as [|x l1 IH]; intros s; simpl; [done|].
  destruct (body x s); simpl; [apply IH|done..].
Qed.

(** X17. In a session the interest set never shrinks: after further calls
    of [add_lines_of_interest] and [add_context] it contains what it
    contained before. *)
Theorem interest_never_shrinks (tc : TreeContext) (cs1 cs2 : list call)
    (st1 st2 : State) :
  session tc cs1 = Ok st1 →
  session tc (cs1 ++ cs2) = Ok st2 →
  lines_of_interest st1 ⊆ lines_of_interest st2.
Proof.
  unfold session. intros H1 H2. rewrite for_each_app, H1 in H2. simpl in H2.
  assert (PreOrder (λ s s' : State, lines_of_interest s ⊆ lines_of_interest s'))
    as HR by (split; [by intros ? | intros a b c ??; by etransitivity]).
  eapply (@for_each_preserves _ _ (run_call tc) _ HR); [|exact H2].
  intros [X|] s s' _ Hcall; simpl in Hcall.
  - inv_res. simpl. set_solver.
  - by rewrite (add_context_lines_of_interest _ _ _ Hcall).
Qed.

Lemma interest_never_shrinks_witness :
  ∃ st1 st2,
    session block_tc [AddLinesOfInterest {[ 5 ]}; AddContext] = Ok st1 ∧
    session block_tc ([AddLinesOfInterest {[ 5 ]}; AddContext] ++
                      [AddLinesOfInterest {[ 2 ]}; AddContext]) = Ok st2 ∧
    lines_of_interest st1 ⊆ lines_of_interest st2.
Proof.
  eexists _, _. split; [vm_compute; reflexivity|]. split; [vm_compute; reflexivity|].
  apply (interest_never_shrinks block_tc [AddLinesOfInterest {[ 5 ]}; AddContext]
           [AddLinesOfInterest {[ 2 ]}; AddContext]);
    vm_compute; reflexivity.
Defined.
